(** * Manage_Intervals_Challenge: the interval list of [manage_intervals.py]

    A shallow embedding of class [EditIntervalsProgram]: the flat endpoint
    list [_m_IntervalList], the logger the methods write to, and the methods
    [printIntervals], [addInterval], [removeInterval] and [clearList],
    followed by the properties of the specification that concern them. *)

From Stdlib Require Import ZArith List Bool String Ascii Lia DecimalString
  PeanoNat Sorted.
Import ListNotations.
Open Scope Z_scope.

(** * Part I: the program *)

(** ** The logger

    [logging.getLogger()] with [basicConfig(level=logging.INFO)].  A record
    keeps the format string and its arguments apart, as [logging] does. *)

Inductive level : Type := DEBUG | INFO | ERROR.

Definition level_rank (l : level) : nat :=
  match l with DEBUG => 10 | INFO => 20 | ERROR => 40 end%nat.

Inductive logarg : Type :=
| AIdx (n : nat)
| AList (l : list Z)
| AStr (s : string).

Record logrecord : Type := mkRecord
  { lr_level : level; lr_msg : string; lr_args : list logarg }.

Record logger : Type := mkLogger
  { lg_level : level; lg_emitted : list logrecord }.

Definition logger_emit (r : logrecord) (lg : logger) : logger :=
  if (level_rank (lg_level lg) <=? level_rank (lr_level r))%nat
  then mkLogger (lg_level lg) (lg_emitted lg ++ [r])
  else lg.

(** ** Program state: the two attributes set by [__init__],
    [_m_IntervalList] and [_m_Logger] *)

Record program : Type := mkProgram
  { m_IntervalList : list Z; m_Logger : logger }.

Definition init : program :=
  mkProgram [] (mkLogger INFO []).

(** ** A state-and-exception monad with a divergence outcome for loops *)

Inductive exn : Type := IndexError.

Inductive outcome (A : Type) : Type :=
| Ok (a : A) (s : program)
| Raise (e : exn) (s : program)
| Timeout.
Arguments Ok {A} a s.
Arguments Raise {A} e s.
Arguments Timeout {A}.

Definition M (A : Type) : Type := program -> outcome A.

Definition ret {A} (a : A) : M A := fun s => Ok a s.

Definition bind {A B} (m : M A) (k : A -> M B) : M B :=
  fun s => match m s with
           | Ok a s' => k a s'
           | Raise e s' => Raise e s'
           | Timeout => Timeout
           end.

Definition raise {A} (e : exn) : M A := fun s => Raise e s.

Declare Scope prog_scope.
Delimit Scope prog_scope with prog.
Notation "x <- c1 ;; c2" := (bind c1 (fun x => c2))
  (at level 61, c1 at next level, right associativity) : prog_scope.
Notation "c1 ;; c2" := (bind c1 (fun _ => c2))
  (at level 61, right associativity) : prog_scope.
Open Scope prog_scope.

(** [while cond: body] over the local variables [x]; the fuel bounds the
    number of iterations and running out of it is [Timeout]. *)
Fixpoint while {X} (fuel : nat) (cond : X -> M bool) (body : X -> M X) (x : X)
  : M X :=
  match fuel with
  | O => fun _ => Timeout
  | S fuel' =>
      b <- cond x ;;
      if b then (x' <- body x ;; while fuel' cond body x') else ret x
  end.

(** [for i in xs: body] *)
Fixpoint for_each {I X} (xs : list I) (body : I -> X -> M X) (x : X) : M X :=
  match xs with
  | [] => ret x
  | i :: xs' => x' <- body i x ;; for_each xs' body x'
  end.

(** ** Python list primitives on [self._m_IntervalList]

    Indices are the counters of the source, which start at 0 and are only
    incremented, so they are naturals; [L[-1]] is the separate [list_last]. *)

Definition set_list (l : list Z) (s : program) : program :=
  mkProgram l (m_Logger s).

(** The list object itself, as [logging] receives it for [%s]. *)
Definition list_snapshot : M (list Z) :=
  fun s => Ok (m_IntervalList s) s.

Definition list_len : M nat :=
  fun s => Ok (List.length (m_IntervalList s)) s.

Definition list_get (i : nat) : M Z :=
  fun s => match nth_error (m_IntervalList s) i with
           | Some v => Ok v s
           | None => Raise IndexError s
           end.

Definition py_last {A} (l : list A) : option A :=
  match l with
  | [] => None
  | a :: l' => Some (last l' a)
  end.

Definition list_last : M Z :=
  fun s => match py_last (m_IntervalList s) with
           | Some v => Ok v s
           | None => Raise IndexError s
           end.

Definition py_insert {A} (l : list A) (i : nat) (x : A) : list A :=
  firstn i l ++ x :: skipn i l.

Definition list_insert (i : nat) (x : Z) : M unit :=
  fun s => Ok tt (set_list (py_insert (m_IntervalList s) i x) s).

Definition list_append (x : Z) : M unit :=
  fun s => Ok tt (set_list (m_IntervalList s ++ [x]) s).

Definition py_del {A} (l : list A) (i : nat) : list A :=
  firstn i l ++ skipn (S i) l.

Definition list_del (i : nat) : M unit :=
  fun s => if (i <? List.length (m_IntervalList s))%nat
           then Ok tt (set_list (py_del (m_IntervalList s) i) s)
           else Raise IndexError s.

Definition list_clear : M unit :=
  fun s => Ok tt (set_list [] s).

Definition log (lv : level) (msg : string) (args : list logarg) : M unit :=
  fun s => Ok tt (mkProgram (m_IntervalList s)
                            (logger_emit (mkRecord lv msg args) (m_Logger s))).

(** ** printIntervals *)

(** [str(z)] for a Python integer *)
Definition str_of_int (z : Z) : string :=
  NilZero.string_of_int (Z.to_int z).

(** ['({intervalStart}, {intervalEnd})'.format(...)] *)
Definition format_interval (s e : Z) : string :=
  ("(" ++ str_of_int s ++ ", " ++ str_of_int e ++ ")")%string.

(** [range(0, n, 2)] *)
Definition range_step2 (n : nat) : list nat :=
  map (fun k => 2 * k)%nat (seq 0 (Nat.div2 (S n))).

(** [outputList[-1] = x] *)
Definition set_last {A} (l : list A) (x : A) : option (list A) :=
  match l with
  | [] => None
  | _ => Some (removelast l ++ [x])
  end.

(** The body of the [for] loop (lines 109-114). *)
Definition format_step (i : nat) (outputList : list string)
  : M (list string) :=
  intervalStart <- list_get i ;;
  intervalEnd <- list_get (i + 1) ;;
  ret ((outputList ++ [format_interval intervalStart intervalEnd])
         ++ [","%string]).

Definition printIntervals : M unit :=
  l <- list_snapshot ;;
  log DEBUG "Intervals list: %s" [AList l] ;;
  n <- list_len ;;
  outputList <- for_each (range_step2 n) format_step ["["%string] ;;
  n <- list_len ;;
  outputList <-
    (if (n =? 0)%nat then ret (outputList ++ ["]"%string])
     else match set_last outputList "]"%string with
          | Some o => ret o
          | None => raise IndexError
          end) ;;
  let outputString := String.concat "" outputList in
  log INFO "Intervals: %s" [AStr outputString].

(** ** addInterval *)

(** [while idx < len(L) and L[idx] < v: idx += 1] (lines 190-196, 408-414) *)
Definition below_at (v : Z) (idx : nat) : M bool :=
  n <- list_len ;;
  if (idx <? n)%nat then (x <- list_get idx ;; ret (x <? v)) else ret false.

Definition search (fuel : nat) (v : Z) (idx : nat) : M nat :=
  while fuel (below_at v) (fun idx => ret (idx + 1)%nat) idx.

(** [while currentIdx < len(L) and L[currentIdx] < end: del L[currentIdx]]
    (lines 300-301, 508-509) *)
Definition delete_interior (fuel : nat) (end_ : Z) (currentIdx : nat) : M nat :=
  while fuel (below_at end_) (fun idx => list_del idx ;; ret idx) currentIdx.

Definition is_odd_index (idx : nat) : bool := (idx mod 2 =? 1)%nat.

(** Locate the insertion points (lines 187-221 and 405-431): the two
    searches and the debug record; the two parities are taken from the
    returned indices. *)
Definition locate (fuel : nat) (start end_ : Z) : M (nat * nat) :=
  startInsertionIdx <- search fuel start 0%nat ;;
  endInsertionIdx <- search fuel end_ startInsertionIdx ;;
  n <- list_len ;;
  log DEBUG "startInsertionIdx = %d, endInsertionIdx = %d, listLen = %d"
      [AIdx startInsertionIdx; AIdx endInsertionIdx; AIdx n] ;;
  ret (startInsertionIdx, endInsertionIdx).

(** Insert the beginning of the new interval (lines 227-286); returns the
    updated [currentIdx]. *)
Definition add_start (start : Z) (startInsertionIdx : nat) : M nat :=
  let isStartIntervalEnd := is_odd_index startInsertionIdx in
  let currentIdx := startInsertionIdx in
  x <- list_get currentIdx ;;
  if start <? x then
    if Bool.eqb isStartIntervalEnd false
    then (list_insert currentIdx start ;; ret (currentIdx + 1)%nat)
    else ret currentIdx
  else
    if Bool.eqb isStartIntervalEnd true
    then (list_del currentIdx ;; ret currentIdx)
    else ret (currentIdx + 1)%nat.

(** Insert the end of the new interval (lines 307-375). *)
Definition add_end (end_ : Z) (endInsertionIdx currentIdx : nat) : M unit :=
  let isEndIntervalEnd := is_odd_index endInsertionIdx in
  z <- list_last ;;
  if end_ >? z then list_append end_
  else
    x <- list_get currentIdx ;;
    if end_ <? x then
      if Bool.eqb isEndIntervalEnd false
      then list_insert currentIdx end_
      else ret tt
    else
      if Bool.eqb isEndIntervalEnd false
      then list_del currentIdx
      else ret tt.

(** The final [else] of [addInterval] (lines 177-375): the interval goes
    somewhere within the list of existing intervals. *)
Definition add_general (fuel : nat) (start end_ : Z) : M unit :=
  idxs <- locate fuel start end_ ;;
  let '(startInsertionIdx, endInsertionIdx) := idxs in
  currentIdx <- add_start start startInsertionIdx ;;
  currentIdx <- delete_interior fuel end_ currentIdx ;;
  add_end end_ endInsertionIdx currentIdx.

Definition addInterval (fuel : nat) (start end_ : Z) : M unit :=
  if start >=? end_ then log ERROR "Error - start >= end" []
  else
    n <- list_len ;;
    at_end <- (if (n =? 0)%nat then ret true
               else (z <- list_last ;; ret (z <? start))) ;;
    if at_end then
      list_append start ;; list_append end_
    else
      first <- list_get 0 ;;
      if first >? end_ then
        list_insert 0 start ;; list_insert 1 end_
      else
        add_general fuel start end_.

(** ** removeInterval *)

(** Lines 433-494; returns the updated [currentIdx]. *)
Definition remove_start (start : Z) (startInsertionIdx : nat) : M nat :=
  let isStartIntervalEnd := is_odd_index startInsertionIdx in
  let currentIdx := startInsertionIdx in
  x <- list_get currentIdx ;;
  if start <? x then
    if Bool.eqb isStartIntervalEnd true
    then (list_insert currentIdx start ;; ret (currentIdx + 1)%nat)
    else ret currentIdx
  else
    if Bool.eqb isStartIntervalEnd false
    then (list_del currentIdx ;; ret currentIdx)
    else ret (currentIdx + 1)%nat.

(** Lines 511-582. *)
Definition remove_end (end_ : Z) (endInsertionIdx currentIdx : nat) : M unit :=
  let isEndIntervalEnd := is_odd_index endInsertionIdx in
  n <- list_len ;;
  if (n <=? currentIdx)%nat then ret tt
  else
    x <- list_get currentIdx ;;
    if end_ <? x then
      if Bool.eqb isEndIntervalEnd true
      then list_insert currentIdx end_
      else ret tt
    else
      if Bool.eqb isEndIntervalEnd true
      then list_del currentIdx
      else ret tt.

(** The [else] of [removeInterval] (lines 395-582). *)
Definition remove_general (fuel : nat) (start end_ : Z) : M unit :=
  idxs <- locate fuel start end_ ;;
  let '(startInsertionIdx, endInsertionIdx) := idxs in
  currentIdx <- remove_start start startInsertionIdx ;;
  currentIdx <- delete_interior fuel end_ currentIdx ;;
  remove_end end_ endInsertionIdx currentIdx.

Definition removeInterval (fuel : nat) (start end_ : Z) : M unit :=
  if start >=? end_ then log ERROR "Error: start >= end" []
  else
    n <- list_len ;;
    nothing <- (if (n =? 0)%nat then ret true
                else (z <- list_last ;; ret (z <? start))) ;;
    if nothing then ret tt
    else
      remove_general fuel start end_.

(** ** clearList *)

Definition clearList : M unit :=
  list_clear ;; printIntervals.

(** ** enableDebugging / disableDebugging *)

Definition set_level (lv : level) : M unit :=
  fun s => Ok tt (mkProgram (m_IntervalList s)
                            (mkLogger lv (lg_emitted (m_Logger s)))).

Definition do_enableDebugging : M unit :=
  set_level DEBUG ;; log INFO "Debugging mode enabled" [].

Definition do_disableDebugging : M unit :=
  set_level INFO ;; log INFO "Debugging mode disabled" [].

(** ** The commands: do_add, do_remove, do_clear, do_displayList, do_exit

    [args.split()] and [int(...)] are Python built-ins: the commands are
    modelled over any tokenizer [split] and any reader [py_int], where
    [None] stands for [ValueError].  The messages are the byte strings of
    the source: there a backslash before [U] is a backslash, and [\n] is a
    line feed. *)

Definition nl : string := String (ascii_of_nat 10) EmptyString.

(** [cmdArgs[i]] on the local list of tokens *)
Definition token (cmdArgs : list string) (i : nat) : M string :=
  match nth_error cmdArgs i with
  | Some t => ret t
  | None => raise IndexError
  end.

(** The value [None] as an argument of [%s], which shows it as [None]. *)
Definition arg_None : logarg := AStr "None".

Section Commands.
Variable split : string -> list string.
Variable py_int : string -> option Z.

(** [try: start = int(cmdArgs[0]); end = int(cmdArgs[1])
    except ValueError: ...] (lines 614-619, 652-657); [None] when the
    handler is entered. *)
Definition read_bounds (cmdArgs : list string) : M (option (Z * Z)) :=
  a0 <- token cmdArgs 0 ;;
  match py_int a0 with
  | None => ret None
  | Some start =>
      a1 <- token cmdArgs 1 ;;
      match py_int a1 with
      | None => ret None
      | Some end_ => ret (Some (start, end_))
      end
  end.

Definition do_add (fuel : nat) (args : string) : M unit :=
  let cmdArgs := split args in
  if (List.length cmdArgs =? 0)%nat then
    log ERROR "Error - No arguments passed\Usage: add <start> <end>" []
  else if (List.length cmdArgs =? 1)%nat then
    log ERROR ("Error - Only one argument passed (Need at least 2)" ++ nl
               ++ "Format: add <start> <end>")%string []
  else
    bounds <- read_bounds cmdArgs ;;
    match bounds with
    | None => log ERROR "Error - Inputs must be integer values" []
    | Some (start, end_) =>
        if start >=? end_ then
          log ERROR "Error - start must be < end\Usage: add <start> <end>" []
        else
          addInterval fuel start end_ ;;
          printIntervals
    end.

Definition do_remove (fuel : nat) (args : string) : M unit :=
  let cmdArgs := split args in
  if (List.length cmdArgs =? 0)%nat then
    log ERROR "Error - No arguments passed\Usage: remove <start> <end>" []
  else if (List.length cmdArgs =? 1)%nat then
    log ERROR
      "Error - Only one argument passed (Need at least 2)\Usage: remove <start> <end>"
      []
  else
    bounds <- read_bounds cmdArgs ;;
    match bounds with
    | None => log ERROR "Error - Inputs must be integer values" []
    | Some (start, end_) =>
        if start >=? end_ then
          log ERROR "Error - start must be < end\Usage: remove <start> <end>"
              []
        else
          removeInterval fuel start end_ ;;
          printIntervals
    end.

End Commands.

(** [result = self.clearList()] is [None]: [clearList] has no [return]. *)
Definition do_clear : M unit :=
  clearList ;;
  log INFO "Intervals: %s" [arg_None].

Definition do_displayList : M unit :=
  printIntervals.

(** [return True] *)
Definition do_exit : M bool :=
  ret true.

(** * Part II: the vocabulary of the properties *)

(** ** The endpoint invariant and the represented set *)

(** [endpoints[0] < endpoints[1] < ...] *)
Fixpoint increasing (l : list Z) : bool :=
  match l with
  | a :: ((b :: _) as t) => (a <? b) && increasing t
  | _ => true
  end.

Definition invariant (l : list Z) : bool :=
  Nat.even (List.length l) && increasing l.

Abbreviation sorted := (StronglySorted Z.lt).

(** The pairs [(L[i], L[i+1])] for even [i], in list order: what the loop of
    [printIntervals] formats. *)
Fixpoint intervals (l : list Z) : list (Z * Z) :=
  match l with
  | s :: e :: t => (s, e) :: intervals t
  | _ => []
  end.

Definition in_interval (x : Z) (i : Z * Z) : bool :=
  (fst i <=? x) && (x <? snd i).

(** [x] belongs to one of the stored intervals [[s, e)]. *)
Definition member (l : list Z) (x : Z) : bool :=
  existsb (in_interval x) (intervals l).

(** [end[i] < start[i+1]] for every adjacent pair of reported intervals. *)
Fixpoint gaps (ivs : list (Z * Z)) : bool :=
  match ivs with
  | i :: ((j :: _) as t) => (snd i <? fst j) && gaps t
  | _ => true
  end.

Definition nonempty_intervals (ivs : list (Z * Z)) : bool :=
  forallb (fun i => fst i <? snd i) ivs.

(** Number of stored boundaries at or below [x]; its parity tells whether
    [x] is inside an interval. *)
Definition below (l : list Z) (x : Z) : nat :=
  List.length (filter (fun e => e <=? x) l).

Definition occurrences (l : list Z) (e : Z) : nat :=
  List.length (filter (fun a => a =? e) l).

(** The largest and the smallest stored endpoint. *)
Definition maximum (l : list Z) : option Z :=
  match l with [] => None | a :: t => Some (fold_left Z.max t a) end.

Definition minimum (l : list Z) : option Z :=
  match l with [] => None | a :: t => Some (fold_left Z.min t a) end.

(** ** Sequences of calls *)

Inductive command : Type :=
| Add (start end_ : Z)
| Remove (start end_ : Z).

Definition valid (c : command) : bool :=
  match c with Add s e | Remove s e => s <? e end.

Definition exec (fuel : nat) (c : command) : M unit :=
  match c with
  | Add s e => addInterval fuel s e
  | Remove s e => removeInterval fuel s e
  end.

Fixpoint exec_all (fuel : nat) (cs : list command) : M unit :=
  match cs with
  | [] => ret tt
  | c :: cs' => exec fuel c ;; exec_all fuel cs'
  end.

Definition add_commands (ivs : list (Z * Z)) : list command :=
  map (fun i => Add (fst i) (snd i)) ivs.

(** ** The list around the cursor

    The loops read the list at a cursor: [pre] is what lies before it, [mid]
    what a loop passes over, [suf] where it stops. *)

Definition head_ge (v : Z) (l : list Z) : Prop :=
  match l with [] => True | x :: _ => v <= x end.

Definition head_gt (v : Z) (l : list Z) : Prop :=
  match l with [] => False | x :: _ => v < x end.

(** [opt b x] is the boundary [x] when it is kept, nothing otherwise. *)
Definition opt (b : bool) (x : Z) : list Z := if b then [x] else [].

(** The debug record of [locate]. *)
Definition locate_record (si ei n : nat) : logrecord :=
  mkRecord DEBUG "startInsertionIdx = %d, endInsertionIdx = %d, listLen = %d"
           [AIdx si; AIdx ei; AIdx n].

(** What the end phase of [addInterval] leaves, for a cursor between
    [pre] and [T]. *)
Definition add_end_result (pre T : list Z) (ei : nat) (end_ : Z) : list Z :=
  match T with
  | [] => pre ++ [end_]
  | t :: T' =>
      if end_ >? last T' t then (pre ++ T) ++ [end_]
      else if end_ <? t
           then (if Nat.even ei then pre ++ end_ :: T else pre ++ T)
           else (if Nat.even ei then pre ++ T' else pre ++ T)
  end.

(** The same for the end phase of [removeInterval]. *)
Definition remove_end_result (pre T : list Z) (ei : nat) (end_ : Z) : list Z :=
  match T with
  | [] => pre
  | t :: T' =>
      if end_ <? t
      then (if Nat.odd ei then pre ++ end_ :: T else pre ++ T)
      else (if Nat.odd ei then pre ++ T' else pre ++ T)
  end.

(** A list cut around [start] and [end_]: [P] below [start], [A] the
    boundary equal to [start] if any, [Mid] strictly between, [B] the boundary
    equal to [end_] if any, [S] above [end_]. *)
Definition pieces (start end_ : Z) (P A Mid B S : list Z) : Prop :=
  Forall (fun x => x < start) P /\
  (A = [] \/ A = [start]) /\
  Forall (fun x => start < x < end_) Mid /\
  (B = [] \/ B = [end_]) /\
  Forall (fun x => end_ < x) S.

(** What [addInterval] makes of a cut list: [start] is a boundary of the
    result when an even number of boundaries lies below it, [end_] when an
    even number lies at or below it. *)
Definition add_result (start end_ : Z) (P A Mid B S : list Z) : list Z :=
  P ++ opt (Nat.even (List.length P)) start
    ++ opt (Nat.even (List.length P + List.length A + List.length Mid
                      + List.length B)) end_
    ++ S.

(** What [removeInterval] makes of it: the same with odd for even. *)
Definition remove_result (start end_ : Z) (P A Mid B S : list Z) : list Z :=
  P ++ opt (Nat.odd (List.length P)) start
    ++ opt (Nat.odd (List.length P + List.length A + List.length Mid
                     + List.length B)) end_
    ++ S.

(** ** Exceptions *)

(** The call ended in an exception, which is what reaches the caller of a
    Python method that fails; a method that ends in [return] gives [Ok]. *)
Definition raised {A : Type} (o : outcome A) : bool :=
  match o with
  | Raise _ _ => true
  | _ => false
  end.

(** ** The log *)

(** The logger kept its level and gained only DEBUG records. *)
Definition only_debug_added (lg lg' : logger) : Prop :=
  lg_level lg' = lg_level lg /\
  exists extra, lg_emitted lg' = lg_emitted lg ++ extra /\
                Forall (fun r => lr_level r = DEBUG) extra.

(** The logger kept its level and gained no ERROR record. *)
Definition no_error_added (lg lg' : logger) : Prop :=
  lg_level lg' = lg_level lg /\
  exists extra, lg_emitted lg' = lg_emitted lg ++ extra /\
                Forall (fun r => lr_level r <> ERROR) extra.

(** ** Rendering *)

(** What the loop of [printIntervals] appends for one interval. *)
Definition cell (i : Z * Z) : list string :=
  [format_interval (fst i) (snd i); ","%string].

(** The list of strings joined by [''.join(outputList)]. *)
Definition output_list (l : list Z) : list string :=
  match l with
  | [] => ["["%string; "]"%string]
  | _ => removelast ("["%string :: flat_map cell (intervals l))
         ++ ["]"%string]
  end.

Definition format_pair (i : Z * Z) : string := format_interval (fst i) (snd i).

(** The string that [printIntervals] logs, in closed form: the formatted
    intervals joined by a comma, between brackets. *)
Definition rendering (l : list Z) : string :=
  ("[" ++ String.concat "," (map format_pair (intervals l)) ++ "]")%string.

(** The format that the specification and the comments of [printIntervals]
    describe ("[(1, 3), (5, 8), (10, 12)]"): the formatted intervals joined
    by a comma and a space. *)
Definition spec_rendering (l : list Z) : string :=
  ("[" ++ String.concat ", " (map format_pair (intervals l)) ++ "]")%string.

(** ** The commands *)

(** The bounds that [do_add] and [do_remove] pass on: the first two tokens
    read as integers [start < end_]; whatever follows them is not looked
    at. *)
Definition accepted_bounds (split : string -> list string)
    (py_int : string -> option Z) (args : string) : option (Z * Z) :=
  match split args with
  | a0 :: a1 :: _ =>
      match py_int a0, py_int a1 with
      | Some start, Some end_ =>
          if start <? end_ then Some (start, end_) else None
      | _, _ => None
      end
  | _ => None
  end.

(** The log after a call that ends with [printIntervals]: the level is kept
    and the last record shows the list. *)
Definition ends_with_rendering (lg lg' : logger) (l' : list Z) : Prop :=
  lg_level lg' = lg_level lg /\
  exists dbg,
    lg_emitted lg'
    = lg_emitted lg ++ dbg
        ++ [mkRecord INFO "Intervals: %s" [AStr (rendering l')]]
    /\ Forall (fun r => lr_level r = DEBUG) dbg.

(** Whether [x] is covered after the calls [cs], given whether it was. *)
Definition covered_step (x : Z) (b : bool) (c : command) : bool :=
  match c with
  | Add s e => b || in_interval x (s, e)
  | Remove s e => b && negb (in_interval x (s, e))
  end.

Definition covers_after (cs : list command) (l : list Z) (x : Z) : bool :=
  fold_left (covered_step x) cs (member l x).

(** A tokenizer and a decimal reader to run the commands on examples:
    tokens are separated by spaces, and a token is read when it is a string
    of digits, with a minus sign before it or not. *)
Fixpoint words_from (cur : string) (s : string) : list string :=
  match s with
  | EmptyString => match cur with EmptyString => [] | _ => [cur] end
  | String c s' =>
      if Ascii.eqb c " "%char
      then match cur with
           | EmptyString => words_from EmptyString s'
           | _ => cur :: words_from EmptyString s'
           end
      else words_from (cur ++ String c EmptyString)%string s'
  end.

Definition words (s : string) : list string := words_from EmptyString s.

Definition digit_of (c : ascii) : option Z :=
  let n := Z.of_nat (nat_of_ascii c) in
  if (48 <=? n) && (n <=? 57) then Some (n - 48) else None.

Fixpoint digits_from (acc : Z) (s : string) : option Z :=
  match s with
  | EmptyString => Some acc
  | String c s' =>
      match digit_of c with
      | Some d => digits_from (10 * acc + d) s'
      | None => None
      end
  end.

Definition decimal (s : string) : option Z :=
  match s with
  | EmptyString => None
  | String c s' =>
      if Ascii.eqb c "-"%char
      then match s' with
           | EmptyString => None
           | _ => option_map Z.opp (digits_from 0 s')
           end
      else digits_from 0 s
  end.

(** ** Frames and fuel *)

(** The computation finishes, normally or by an exception, with the stored
    list as it found it. *)
Definition keeps_list {A} (m : M A) : Prop :=
  forall s, match m s with
            | Ok _ s' | Raise _ s' => m_IntervalList s' = m_IntervalList s
            | Timeout => False
            end.

(** A run that has enough fuel to finish keeps its outcome with more. *)
Definition fuel_stable {A} (m : nat -> M A) : Prop :=
  forall f1 f2 s, (f1 <= f2)%nat -> m f1 s = Timeout \/ m f1 s = m f2 s.

(** * Part III: proofs *)

(** ** Tactics *)

Ltac mstep := cbv beta iota; cbn [m_IntervalList m_Logger].

Ltac mred :=
  unfold bind, ret, raise, list_len, list_get, list_last, list_insert,
    list_append, list_del, list_clear, log, set_list;
  mstep.

Ltac flags :=
  cbn [Bool.eqb negb]; cbv beta iota; cbn [m_IntervalList m_Logger].

Ltac split_range x start end_ :=
  destruct (Z.leb_spec start x), (Z.ltb_spec x end_), (Z.leb_spec end_ x);
  try lia; cbn [andb orb negb].

Ltac bounded H := eapply Forall_impl; [|exact H]; simpl; intros; lia.

Ltac parity_atoms :=
  rewrite <- ?Nat.negb_odd, ?Nat.odd_add;
  repeat match goal with
         | |- context [Nat.odd ?n] => generalize (Nat.odd n); intro
         end;
  repeat match goal with b : bool |- _ => destruct b end;
  reflexivity.

(** ** The list primitives at a cursor *)

Section ListPrimitives.
Context {A : Type}.
Implicit Types (pre suf l : list A) (x : A).

Lemma nth_error_at pre x suf :
  nth_error (pre ++ x :: suf) (List.length pre) = Some x.
Proof. induction pre; simpl; auto. Qed.

Lemma nth_error_past pre : nth_error pre (List.length pre) = None.
Proof. induction pre; simpl; auto. Qed.

Lemma py_insert_at pre suf x :
  py_insert (pre ++ suf) (List.length pre) x = pre ++ x :: suf.
Proof.
  unfold py_insert. induction pre; simpl.
  - destruct suf; reflexivity.
  - now rewrite IHpre.
Qed.

Lemma py_del_at pre x suf :
  py_del (pre ++ x :: suf) (List.length pre) = pre ++ suf.
Proof.
  unfold py_del. induction pre; simpl.
  - reflexivity.
  - simpl in IHpre. now rewrite IHpre.
Qed.

Lemma py_last_snoc l x : py_last (l ++ [x]) = Some x.
Proof.
  destruct l as [|a l]; simpl; [reflexivity|].
  f_equal. apply last_last.
Qed.

Lemma py_last_app pre x suf :
  py_last (pre ++ x :: suf) = Some (last suf x).
Proof.
  revert x. induction suf as [|y suf IH] using rev_ind; intros x.
  - apply py_last_snoc.
  - rewrite app_comm_cons, app_assoc, py_last_snoc.
    now rewrite last_last.
Qed.

Lemma length_snoc pre x : List.length (pre ++ [x]) = (List.length pre + 1)%nat.
Proof. now rewrite length_app. Qed.
End ListPrimitives.

Lemma is_odd_index_odd n : is_odd_index n = Nat.odd n.
Proof.
  unfold is_odd_index.
  destruct (Nat.odd n) eqn:E.
  - apply Nat.odd_spec in E. destruct E as [k ->].
    replace (2 * k + 1)%nat with (1 + k * 2)%nat by lia.
    now rewrite Nat.Div0.mod_add.
  - apply (f_equal negb) in E. rewrite Nat.negb_odd in E.
    apply Nat.even_spec in E. destruct E as [k ->].
    replace (2 * k)%nat with (0 + k * 2)%nat by lia.
    now rewrite Nat.Div0.mod_add.
Qed.

(** ** Running the two loops *)

Lemma below_at_stop v pre suf lg :
  head_ge v suf ->
  below_at v (List.length pre) (mkProgram (pre ++ suf) lg)
  = Ok false (mkProgram (pre ++ suf) lg).
Proof.
  intros H. unfold below_at. mred.
  destruct suf as [|x suf].
  - rewrite app_nil_r, Nat.ltb_irrefl. reflexivity.
  - replace (_ <? _)%nat with true
      by (symmetry; apply Nat.ltb_lt; rewrite length_app; simpl; lia).
    mred. rewrite nth_error_at. simpl in H.
    replace (x <? v) with false by (symmetry; apply Z.ltb_ge; lia).
    reflexivity.
Qed.

Lemma below_at_go v pre x suf lg :
  x < v ->
  below_at v (List.length pre) (mkProgram (pre ++ x :: suf) lg)
  = Ok true (mkProgram (pre ++ x :: suf) lg).
Proof.
  intros H. unfold below_at. mred.
  replace (_ <? _)%nat with true
    by (symmetry; apply Nat.ltb_lt; rewrite length_app; simpl; lia).
  mred. rewrite nth_error_at.
  replace (x <? v) with true by (symmetry; apply Z.ltb_lt; lia).
  reflexivity.
Qed.

Lemma search_run mid : forall pre suf lg fuel v,
  Forall (fun x => x < v) mid -> head_ge v suf ->
  (List.length mid < fuel)%nat ->
  search fuel v (List.length pre) (mkProgram (pre ++ mid ++ suf) lg)
  = Ok (List.length pre + List.length mid)%nat
       (mkProgram (pre ++ mid ++ suf) lg).
Proof.
  induction mid as [|a mid IH]; intros pre suf lg fuel v Hmid Hsuf Hfuel;
    (destruct fuel as [|fuel]; [simpl in Hfuel; lia|]);
    unfold search; cbn [while]; unfold bind at 1.
  - simpl app. rewrite below_at_stop by assumption.
    mred. now rewrite Nat.add_0_r.
  - inversion Hmid; subst. simpl app.
    rewrite below_at_go by assumption. mred.
    replace (pre ++ a :: mid ++ suf) with ((pre ++ [a]) ++ mid ++ suf)
      by (now rewrite <- app_assoc).
    rewrite <- (length_snoc pre a).
    change (search fuel v (List.length (pre ++ [a]))
              (mkProgram ((pre ++ [a]) ++ mid ++ suf) lg) = 
            Ok (List.length pre + List.length (a :: mid))%nat
               (mkProgram ((pre ++ [a]) ++ mid ++ suf) lg)).
    rewrite IH; auto; [|simpl in Hfuel; lia].
    rewrite length_snoc. simpl List.length. f_equal. lia.
Qed.

Lemma delete_interior_run mid : forall pre suf lg fuel v,
  Forall (fun x => x < v) mid -> head_ge v suf ->
  (List.length mid < fuel)%nat ->
  delete_interior fuel v (List.length pre) (mkProgram (pre ++ mid ++ suf) lg)
  = Ok (List.length pre) (mkProgram (pre ++ suf) lg).
Proof.
  induction mid as [|a mid IH]; intros pre suf lg fuel v Hmid Hsuf Hfuel;
    (destruct fuel as [|fuel]; [simpl in Hfuel; lia|]);
    unfold delete_interior; cbn [while]; unfold bind at 1.
  - simpl app. rewrite below_at_stop by assumption. reflexivity.
  - inversion Hmid; subst. simpl app.
    rewrite below_at_go by assumption. mred.
    replace (_ <? _)%nat with true
      by (symmetry; apply Nat.ltb_lt; rewrite length_app; simpl; lia).
    mred. rewrite py_del_at.
    change (delete_interior fuel v (List.length pre)
              (mkProgram (pre ++ mid ++ suf) lg) =
            Ok (List.length pre) (mkProgram (pre ++ suf) lg)).
    apply IH; auto. simpl in Hfuel; lia.
Qed.

(** ** Running the phases of [addInterval] and [removeInterval] *)

Lemma locate_run P M2 T lg fuel start end_ :
  Forall (fun x => x < start) P -> head_ge start (M2 ++ T) ->
  Forall (fun x => x < end_) M2 -> head_ge end_ T ->
  (List.length (P ++ M2 ++ T) < fuel)%nat ->
  locate fuel start end_ (mkProgram (P ++ M2 ++ T) lg)
  = Ok (List.length P, (List.length P + List.length M2)%nat)
       (mkProgram (P ++ M2 ++ T)
          (logger_emit
             (locate_record (List.length P) (List.length P + List.length M2)
                            (List.length (P ++ M2 ++ T))) lg)).
Proof.
  intros HP HR HM HT Hfuel. rewrite !length_app in Hfuel.
  unfold locate. unfold bind at 1.
  pose proof (search_run P [] (M2 ++ T) lg fuel start HP HR) as H1.
  cbn [app List.length Nat.add] in H1. rewrite H1 by lia.
  unfold bind at 1.
  rewrite (search_run M2 P T lg fuel end_) by (auto; lia).
  reflexivity.
Qed.

Lemma add_start_run P A Rest lg start :
  (A = [] /\ head_gt start Rest) \/ A = [start] ->
  add_start start (List.length P) (mkProgram (P ++ A ++ Rest) lg)
  = Ok (List.length (P ++ opt (Nat.even (List.length P)) start))
       (mkProgram ((P ++ opt (Nat.even (List.length P)) start) ++ Rest) lg).
Proof.
  intros HA. unfold add_start. rewrite is_odd_index_odd, <- Nat.negb_even.
  destruct HA as [[-> HR] | ->].
  - destruct Rest as [|x Rest]; [destruct HR|]. simpl in HR.
    simpl app. mred. rewrite nth_error_at.
    replace (start <? x) with true by (symmetry; apply Z.ltb_lt; lia).
    destruct (Nat.even (List.length P)); flags; unfold opt.
    + rewrite py_insert_at, length_snoc, <- app_assoc. reflexivity.
    + now rewrite !app_nil_r.
  - simpl app. mred. rewrite nth_error_at, Z.ltb_irrefl.
    destruct (Nat.even (List.length P)); flags; unfold opt.
    + rewrite length_snoc, <- app_assoc. reflexivity.
    + replace (_ <? _)%nat with true
        by (symmetry; apply Nat.ltb_lt; rewrite length_app; simpl; lia).
      now rewrite py_del_at, !app_nil_r.
Qed.

Lemma remove_start_run P A Rest lg start :
  (A = [] /\ head_gt start Rest) \/ A = [start] ->
  remove_start start (List.length P) (mkProgram (P ++ A ++ Rest) lg)
  = Ok (List.length (P ++ opt (Nat.odd (List.length P)) start))
       (mkProgram ((P ++ opt (Nat.odd (List.length P)) start) ++ Rest) lg).
Proof.
  intros HA. unfold remove_start. rewrite is_odd_index_odd.
  destruct HA as [[-> HR] | ->].
  - destruct Rest as [|x Rest]; [destruct HR|]. simpl in HR.
    simpl app. mred. rewrite nth_error_at.
    replace (start <? x) with true by (symmetry; apply Z.ltb_lt; lia).
    destruct (Nat.odd (List.length P)); flags; unfold opt.
    + rewrite py_insert_at, length_snoc, <- app_assoc. reflexivity.
    + now rewrite !app_nil_r.
  - simpl app. mred. rewrite nth_error_at, Z.ltb_irrefl.
    destruct (Nat.odd (List.length P)); flags; unfold opt.
    + rewrite length_snoc, <- app_assoc. reflexivity.
    + replace (_ <? _)%nat with true
        by (symmetry; apply Nat.ltb_lt; rewrite length_app; simpl; lia).
      now rewrite py_del_at, !app_nil_r.
Qed.

Lemma add_end_run pre0 z T lg ei end_ :
  z < end_ -> head_ge end_ T ->
  add_end end_ ei (List.length (pre0 ++ [z]))
          (mkProgram ((pre0 ++ [z]) ++ T) lg)
  = Ok tt (mkProgram (add_end_result (pre0 ++ [z]) T ei end_) lg).
Proof.
  intros Hz HT. unfold add_end. rewrite is_odd_index_odd, <- Nat.negb_even.
  destruct T as [|t T']; unfold add_end_result.
  - mred. rewrite app_nil_r, py_last_snoc.
    replace (end_ >? z) with true by (symmetry; apply Z.gtb_lt; lia).
    reflexivity.
  - simpl in HT. mred. rewrite py_last_app.
    destruct (end_ >? last T' t); [reflexivity|].
    cbn [m_IntervalList]. rewrite nth_error_at.
    destruct (end_ <? t); destruct (Nat.even ei); flags;
      try reflexivity.
    + now rewrite py_insert_at.
    + replace (_ <? _)%nat with true
        by (symmetry; apply Nat.ltb_lt; rewrite (length_app _ (t :: T'));
            simpl; lia).
      now rewrite py_del_at.
Qed.

Lemma remove_end_run pre T lg ei end_ :
  remove_end end_ ei (List.length pre) (mkProgram (pre ++ T) lg)
  = Ok tt (mkProgram (remove_end_result pre T ei end_) lg).
Proof.
  unfold remove_end. rewrite is_odd_index_odd.
  destruct T as [|t T']; unfold remove_end_result.
  - mred. now rewrite app_nil_r, Nat.leb_refl.
  - mred.
    replace (_ <=? _)%nat with false
      by (symmetry; apply Nat.leb_gt; rewrite length_app; simpl; lia).
    cbn [m_IntervalList]. rewrite nth_error_at.
    destruct (end_ <? t); destruct (Nat.odd ei); flags;
      try reflexivity.
    + now rewrite py_insert_at.
    + replace (_ <? _)%nat with true
        by (symmetry; apply Nat.ltb_lt; rewrite length_app; simpl; lia).
      now rewrite py_del_at.
Qed.

(** ** Cut lists *)

Lemma only_debug_added_refl lg : only_debug_added lg lg.
Proof. split; [reflexivity|]. exists []. now rewrite app_nil_r. Qed.

Lemma only_debug_added_emit lg msg args :
  only_debug_added lg (logger_emit (mkRecord DEBUG msg args) lg).
Proof.
  unfold logger_emit. destruct (_ <=? _)%nat.
  - split; [reflexivity|]. exists [mkRecord DEBUG msg args]. split; auto.
  - apply only_debug_added_refl.
Qed.

Lemma Forall_last {A} (Q : A -> Prop) x l : Forall Q (x :: l) -> Q (last l x).
Proof.
  revert x. induction l as [|y l IH]; intros x H.
  - now inversion H.
  - inversion H as [|? ? Hx Hyl]; subst. inversion Hyl as [|? ? Hy Hl]; subst.
    destruct l as [|z l]; [exact Hy|].
    change (Q (last (z :: l) x)). apply IH. now constructor.
Qed.

Lemma Forall_head_ge v l : Forall (fun x => v <= x) l -> head_ge v l.
Proof. destruct 1; simpl; auto. Qed.

Lemma Forall_head_gt v l : l <> [] -> Forall (fun x => v < x) l -> head_gt v l.
Proof. destruct 2; simpl; congruence. Qed.

Section Pieces.
Variables (start end_ : Z) (P A Mid B S : list Z).
Hypothesis Hlt : start < end_.
Hypothesis Hp : pieces start end_ P A Mid B S.

Let HP : Forall (fun x => x < start) P := proj1 Hp.
Let HA : A = [] \/ A = [start] := proj1 (proj2 Hp).
Let HM : Forall (fun x => start < x < end_) Mid := proj1 (proj2 (proj2 Hp)).
Let HB : B = [] \/ B = [end_] := proj1 (proj2 (proj2 (proj2 Hp))).
Let HS : Forall (fun x => end_ < x) S := proj2 (proj2 (proj2 (proj2 Hp))).

Lemma pieces_A Q : Q start -> Forall Q A.
Proof. destruct HA as [-> | ->]; auto. Qed.

Lemma pieces_B Q : Q end_ -> Forall Q B.
Proof. destruct HB as [-> | ->]; auto. Qed.

Lemma pieces_ge_end : Forall (fun x => end_ <= x) (B ++ S).
Proof.
  apply Forall_app; split; [apply pieces_B; lia|].
  eapply Forall_impl; [|exact HS]. simpl; lia.
Qed.

Lemma pieces_gt_start : Forall (fun x => start < x) (Mid ++ B ++ S).
Proof.
  rewrite !Forall_app. repeat split.
  - eapply Forall_impl; [|exact HM]. simpl; lia.
  - apply pieces_B; lia.
  - eapply Forall_impl; [|exact HS]. simpl; lia.
Qed.

Lemma pieces_ge_start : Forall (fun x => start <= x) (A ++ Mid ++ B ++ S).
Proof.
  apply Forall_app; split; [apply pieces_A; lia|].
  eapply Forall_impl; [|exact pieces_gt_start]. simpl; lia.
Qed.

Lemma pieces_lt_end : Forall (fun x => x < end_) (A ++ Mid).
Proof.
  apply Forall_app; split; [apply pieces_A; lia|].
  eapply Forall_impl; [|exact HM]. simpl; lia.
Qed.

Lemma pieces_le_end : Forall (fun x => x <= end_) (P ++ A ++ Mid ++ B).
Proof.
  rewrite !Forall_app. repeat split.
  - eapply Forall_impl; [|exact HP]. simpl; lia.
  - apply pieces_A; lia.
  - eapply Forall_impl; [|exact HM]. simpl; lia.
  - apply pieces_B; lia.
Qed.
End Pieces.

(** ** Comparisons *)

Lemma ltb_true a b : a < b -> (a <? b) = true.
Proof. apply Z.ltb_lt. Qed.
Lemma ltb_false a b : b <= a -> (a <? b) = false.
Proof. apply Z.ltb_ge. Qed.
Lemma gtb_true a b : b < a -> (a >? b) = true.
Proof. rewrite Z.gtb_ltb. apply Z.ltb_lt. Qed.
Lemma gtb_false a b : a <= b -> (a >? b) = false.
Proof. rewrite Z.gtb_ltb. apply Z.ltb_ge. Qed.
Lemma geb_true a b : b <= a -> (a >=? b) = true.
Proof. rewrite Z.geb_leb. apply Z.leb_le. Qed.
Lemma geb_false a b : a < b -> (a >=? b) = false.
Proof. rewrite Z.geb_leb. apply Z.leb_gt. Qed.

(** ** Running the general path *)

Lemma snoc_cases {A} (l : list A) : l = [] \/ exists l' z, l = l' ++ [z].
Proof.
  destruct l as [|a l] using rev_ind; [now left|right; eauto].
Qed.

Lemma py_last_in {A} (pre R : list A) :
  R <> [] -> exists z, py_last (pre ++ R) = Some z /\ In z R.
Proof.
  destruct R as [|x R]; [congruence|]. intros _.
  exists (last R x). split; [apply py_last_app|].
  apply (Forall_last (fun y => In y (x :: R))).
  apply Forall_forall. auto.
Qed.

Lemma add_general_run P A Mid T lg fuel start end_ :
  start < end_ ->
  Forall (fun x => x < start) P ->
  (A = [] /\ head_gt start (Mid ++ T)) \/ A = [start] ->
  Forall (fun x => x < end_) Mid -> head_ge end_ T ->
  (List.length (P ++ A ++ Mid ++ T) < fuel)%nat ->
  add_general fuel start end_ (mkProgram (P ++ A ++ Mid ++ T) lg)
  = Ok tt (mkProgram
             (add_end_result (P ++ opt (Nat.even (List.length P)) start) T
                (List.length P + List.length A + List.length Mid) end_)
             (logger_emit
                (locate_record (List.length P)
                   (List.length P + List.length A + List.length Mid)
                   (List.length (P ++ A ++ Mid ++ T))) lg)).
Proof.
  intros Hlt HP HA HM HT Hfuel. unfold add_general.
  assert (HAM : Forall (fun x => x < end_) (A ++ Mid)).
  { apply Forall_app; split; auto. destruct HA as [[-> _] | ->]; auto. }
  assert (HR : head_ge start ((A ++ Mid) ++ T)).
  { destruct HA as [[-> HA] | ->]; simpl; [|lia].
    destruct (Mid ++ T); simpl in *; lia. }
  (* locate *)
  unfold bind at 1.
  replace (P ++ A ++ Mid ++ T) with (P ++ (A ++ Mid) ++ T)
    by (now rewrite <- app_assoc).
  rewrite locate_run; auto; [|rewrite <- app_assoc; exact Hfuel].
  mstep.
  (* start boundary *)
  unfold bind at 1.
  replace (P ++ (A ++ Mid) ++ T) with (P ++ A ++ (Mid ++ T))
    by (now rewrite <- app_assoc).
  rewrite add_start_run by exact HA.
  (* interior *)
  unfold bind at 1.
  rewrite delete_interior_run; auto; [|rewrite !length_app in Hfuel; lia].
  (* end boundary *)
  assert (Hpre : exists pre0 z', P ++ opt (Nat.even (List.length P)) start
                                 = pre0 ++ [z'] /\ z' < end_).
  { destruct (Nat.even (List.length P)) eqn:EP; unfold opt.
    - exists P, start. auto.
    - destruct (snoc_cases P) as [-> | (P' & z' & ->)]; [discriminate|].
      apply Forall_app in HP as [_ Hz']. inversion Hz'; subst.
      exists P', z'. rewrite app_nil_r. split; [reflexivity|lia]. }
  destruct Hpre as (pre0 & z' & Epre & Hz').
  rewrite Epre, add_end_run by auto.
  now rewrite length_app, Nat.add_assoc.
Qed.

Lemma remove_general_run P A Mid T lg fuel start end_ :
  start < end_ ->
  Forall (fun x => x < start) P ->
  (A = [] /\ head_gt start (Mid ++ T)) \/ A = [start] ->
  Forall (fun x => x < end_) Mid -> head_ge end_ T ->
  (List.length (P ++ A ++ Mid ++ T) < fuel)%nat ->
  remove_general fuel start end_ (mkProgram (P ++ A ++ Mid ++ T) lg)
  = Ok tt (mkProgram
             (remove_end_result (P ++ opt (Nat.odd (List.length P)) start) T
                (List.length P + List.length A + List.length Mid) end_)
             (logger_emit
                (locate_record (List.length P)
                   (List.length P + List.length A + List.length Mid)
                   (List.length (P ++ A ++ Mid ++ T))) lg)).
Proof.
  intros Hlt HP HA HM HT Hfuel. unfold remove_general.
  assert (HAM : Forall (fun x => x < end_) (A ++ Mid)).
  { apply Forall_app; split; auto. destruct HA as [[-> _] | ->]; auto. }
  assert (HR : head_ge start ((A ++ Mid) ++ T)).
  { destruct HA as [[-> HA] | ->]; simpl; [|lia].
    destruct (Mid ++ T); simpl in *; lia. }
  (* locate *)
  unfold bind at 1.
  replace (P ++ A ++ Mid ++ T) with (P ++ (A ++ Mid) ++ T)
    by (now rewrite <- app_assoc).
  rewrite locate_run; auto; [|rewrite <- app_assoc; exact Hfuel].
  mstep.
  (* start boundary *)
  unfold bind at 1.
  replace (P ++ (A ++ Mid) ++ T) with (P ++ A ++ (Mid ++ T))
    by (now rewrite <- app_assoc).
  rewrite remove_start_run by exact HA.
  (* interior *)
  unfold bind at 1.
  rewrite delete_interior_run; auto; [|rewrite !length_app in Hfuel; lia].
  (* end boundary *)
  rewrite remove_end_run.
  now rewrite length_app, Nat.add_assoc.
Qed.

(** ** Running the operations on a cut list *)

Lemma add_run_pieces start end_ P A Mid B S lg fuel :
  start < end_ -> pieces start end_ P A Mid B S ->
  Nat.even (List.length (P ++ A ++ Mid ++ B ++ S)) = true ->
  (List.length (P ++ A ++ Mid ++ B ++ S) < fuel)%nat ->
  exists lg',
    addInterval fuel start end_ (mkProgram (P ++ A ++ Mid ++ B ++ S) lg)
    = Ok tt (mkProgram (add_result start end_ P A Mid B S) lg')
    /\ only_debug_added lg lg'.
Proof.
  intros Hlt Hp Heven Hfuel.
  pose proof (pieces_ge_start _ _ _ _ _ _ _ Hlt Hp) as Hge.
  pose proof (pieces_gt_start _ _ _ _ _ _ _ Hlt Hp) as Hgt.
  pose proof (pieces_lt_end _ _ _ _ _ _ _ Hlt Hp) as Hle.
  pose proof (pieces_ge_end _ _ _ _ _ _ _ Hp) as Hge'.
  pose proof (pieces_le_end _ _ _ _ _ _ _ Hlt Hp) as Hle'.
  destruct Hp as (HP & HA & HM & HB & HS).
  unfold addInterval, add_result.
  rewrite geb_false by lia.
  destruct (A ++ Mid ++ B ++ S) as [|r R] eqn:ER.
  - (* everything is below start *)
    apply app_eq_nil in ER as [-> ER]. apply app_eq_nil in ER as [-> ER].
    apply app_eq_nil in ER as [-> ->].
    rewrite app_nil_r in *. simpl List.length. rewrite !Nat.add_0_r, Heven.
    exists lg. split; [|apply only_debug_added_refl].
    unfold opt. rewrite app_nil_r.
    destruct (snoc_cases P) as [-> | (P' & z & ->)]; [reflexivity|].
    apply Forall_app in HP as [_ Hz]. inversion Hz; subst.
    mred. rewrite length_snoc.
    replace (_ =? 0)%nat with false by (symmetry; apply Nat.eqb_neq; lia).
    mstep. rewrite py_last_snoc. mstep.
    rewrite ltb_true by lia. mstep.
    rewrite <- !app_assoc. reflexivity.
  - rewrite <- ER in *.
    assert (HR : A ++ Mid ++ B ++ S <> []) by (rewrite ER; discriminate).
    clear ER r R.
    destruct (py_last_in P _ HR) as (z & Hz & Hin).
    assert (Hzs : start <= z) by (rewrite Forall_forall in Hge; auto).
    unfold bind at 1. unfold list_len at 1. mstep.
    replace (_ =? 0)%nat with false
      by (symmetry; apply Nat.eqb_neq; rewrite length_app;
          destruct (A ++ Mid ++ B ++ S); [congruence | simpl; lia]).
    unfold bind at 1. unfold bind at 1. unfold list_last at 1. mstep.
    rewrite Hz. unfold ret at 1. rewrite ltb_false by lia. mstep.
    destruct (P ++ A ++ Mid ++ B) as [|f F] eqn:EF.
    + (* everything is above end_ *)
      apply app_eq_nil in EF as [-> EF]. apply app_eq_nil in EF as [-> EF].
      apply app_eq_nil in EF as [-> ->]. simpl app in *.
      destruct S as [|s0 S']; [congruence|]. inversion HS; subst.
      exists lg. split; [|apply only_debug_added_refl].
      mred. simpl nth_error. mstep. rewrite gtb_true by lia. reflexivity.
    + assert (Hf : nth_error (P ++ A ++ Mid ++ B ++ S) 0 = Some f).
      { replace (P ++ A ++ Mid ++ B ++ S) with ((P ++ A ++ Mid ++ B) ++ S)
          by (now rewrite <- !app_assoc).
        now rewrite EF. }
      inversion Hle' as [|? ? Hfe _]; subst.
      unfold bind at 1. unfold list_get at 1. mstep. rewrite Hf. mstep.
      rewrite gtb_false by lia. mstep.
      rewrite (add_general_run P A Mid (B ++ S)); auto;
        [| destruct HA as [-> | ->]; [left; split; auto|now right];
           apply Forall_head_gt; auto
         | eapply Forall_impl; [|exact HM]; simpl; lia
         | now apply Forall_head_ge ].
      eexists. split; [|apply only_debug_added_emit].
      unfold locate_record. do 2 f_equal.
      rewrite !length_app in Heven.
      unfold add_end_result.
      destruct HB as [-> | ->]; simpl app; simpl List.length in *;
        cbv beta iota.
      * rewrite !Nat.add_0_r in *.
        destruct S as [|s0 S'].
        -- simpl in Heven. rewrite Nat.add_0_r, Nat.add_assoc in Heven.
           rewrite Heven, <- app_assoc. reflexivity.
        -- apply (Forall_last (fun x => end_ <= x)) in Hge' as Hl.
           inversion HS; subst. clear Heven.
           rewrite gtb_false, ltb_true by lia.
           destruct (Nat.even (_ + _)); rewrite <- app_assoc; reflexivity.
      * apply (Forall_last (fun x => end_ <= x)) in Hge' as Hl.
        rewrite gtb_false, Z.ltb_irrefl by lia. clear Heven.
        rewrite Nat.add_1_r, Nat.even_succ, <- Nat.negb_even.
        destruct (Nat.even (_ + _)); rewrite <- app_assoc; reflexivity.
Qed.

Lemma remove_run_pieces start end_ P A Mid B S lg fuel :
  start < end_ -> pieces start end_ P A Mid B S ->
  Nat.even (List.length (P ++ A ++ Mid ++ B ++ S)) = true ->
  (List.length (P ++ A ++ Mid ++ B ++ S) < fuel)%nat ->
  exists lg',
    removeInterval fuel start end_ (mkProgram (P ++ A ++ Mid ++ B ++ S) lg)
    = Ok tt (mkProgram (remove_result start end_ P A Mid B S) lg')
    /\ only_debug_added lg lg'.
Proof.
  intros Hlt Hp Heven Hfuel.
  pose proof (pieces_ge_start _ _ _ _ _ _ _ Hlt Hp) as Hge.
  pose proof (pieces_gt_start _ _ _ _ _ _ _ Hlt Hp) as Hgt.
  pose proof (pieces_lt_end _ _ _ _ _ _ _ Hlt Hp) as Hle.
  pose proof (pieces_ge_end _ _ _ _ _ _ _ Hp) as Hge'.
  destruct Hp as (HP & HA & HM & HB & HS).
  unfold removeInterval, remove_result.
  rewrite geb_false by lia.
  destruct (A ++ Mid ++ B ++ S) as [|r R] eqn:ER.
  - (* everything is below start *)
    apply app_eq_nil in ER as [-> ER]. apply app_eq_nil in ER as [-> ER].
    apply app_eq_nil in ER as [-> ->].
    rewrite app_nil_r in *. simpl List.length. rewrite !Nat.add_0_r.
    rewrite <- Nat.negb_even, Heven.
    exists lg. split; [|apply only_debug_added_refl].
    unfold opt. simpl negb. cbv iota. rewrite app_nil_r.
    destruct (snoc_cases P) as [-> | (P' & z & ->)]; [reflexivity|].
    apply Forall_app in HP as [_ Hz]. inversion Hz; subst.
    mred. rewrite length_snoc.
    replace (_ =? 0)%nat with false by (symmetry; apply Nat.eqb_neq; lia).
    mstep. rewrite py_last_snoc. mstep.
    rewrite ltb_true by lia. mstep. reflexivity.
  - rewrite <- ER in *.
    assert (HR : A ++ Mid ++ B ++ S <> []) by (rewrite ER; discriminate).
    clear ER r R.
    destruct (py_last_in P _ HR) as (z & Hz & Hin).
    assert (Hzs : start <= z) by (rewrite Forall_forall in Hge; auto).
    unfold bind at 1. unfold list_len at 1. mstep.
    replace (_ =? 0)%nat with false
      by (symmetry; apply Nat.eqb_neq; rewrite length_app;
          destruct (A ++ Mid ++ B ++ S); [congruence | simpl; lia]).
    unfold bind at 1. unfold bind at 1. unfold list_last at 1. mstep.
    rewrite Hz. unfold ret at 1. rewrite ltb_false by lia. mstep.
    rewrite (remove_general_run P A Mid (B ++ S)); auto;
      [| destruct HA as [-> | ->]; [left; split; auto|now right];
         apply Forall_head_gt; auto
       | eapply Forall_impl; [|exact HM]; simpl; lia
       | now apply Forall_head_ge ].
    eexists. split; [|apply only_debug_added_emit].
    unfold locate_record. do 2 f_equal.
    rewrite !length_app in Heven.
    unfold remove_end_result.
    destruct HB as [-> | ->]; simpl app; simpl List.length in *;
      cbv beta iota.
    + rewrite !Nat.add_0_r in *.
      destruct S as [|s0 S'].
      * simpl in Heven. rewrite Nat.add_0_r, Nat.add_assoc in Heven.
        rewrite <- (Nat.negb_even (_ + _)), Heven. simpl. now rewrite !app_nil_r.
      * inversion HS; subst. clear Heven.
        rewrite ltb_true by lia.
        destruct (Nat.odd (_ + _)); rewrite <- app_assoc; reflexivity.
    + rewrite Z.ltb_irrefl. clear Heven.
      rewrite Nat.add_1_r, Nat.odd_succ, <- Nat.negb_odd.
      destruct (Nat.odd (_ + _)); rewrite <- app_assoc; reflexivity.
Qed.

(** ** Strictly increasing lists *)

Lemma increasing_sorted l : increasing l = true <-> sorted l.
Proof.
  split.
  - intros H. apply Sorted_StronglySorted; [exact Z.lt_trans|].
    induction l as [|a l IH]; [constructor|].
    destruct l as [|b l]; [repeat constructor|].
    change (increasing (a :: b :: l)) with ((a <? b) && increasing (b :: l)) in H.
    apply andb_prop in H as [Hab H].
    constructor; [now apply IH|]. constructor. now apply Z.ltb_lt.
  - intros H. apply StronglySorted_Sorted in H.
    induction H as [|a l Hs IH Hd]; [reflexivity|].
    destruct l as [|b l]; [reflexivity|].
    inversion Hd; subst.
    change (increasing (a :: b :: l)) with ((a <? b) && increasing (b :: l)).
    rewrite IH, ltb_true by assumption. reflexivity.
Qed.

Lemma sorted_app_sep v l1 l2 :
  sorted l1 -> sorted l2 ->
  Forall (fun x => x < v) l1 -> Forall (fun x => v <= x) l2 ->
  sorted (l1 ++ l2).
Proof.
  intros H1 H2 F1 F2. induction H1 as [|a l1 Hs IH Ha]; [exact H2|].
  inversion F1; subst. simpl. constructor; [now apply IH|].
  apply Forall_app; split; [exact Ha|].
  eapply Forall_impl; [|exact F2]. simpl; lia.
Qed.

Lemma sorted_split v l :
  sorted l ->
  exists lo hi, l = lo ++ hi /\
                Forall (fun x => x < v) lo /\ Forall (fun x => v <= x) hi /\
                sorted lo /\ sorted hi.
Proof.
  induction 1 as [|a l Hs IH Ha].
  - exists [], []. repeat split; constructor.
  - destruct (Z_lt_le_dec a v) as [Hav | Hva].
    + destruct IH as (lo & hi & -> & Flo & Fhi & Slo & Shi).
      exists (a :: lo), hi. apply Forall_app in Ha as [Ha _].
      repeat split; auto. now constructor.
    + exists [], (a :: l). repeat split; auto.
      * constructor; [exact Hva|].
        eapply Forall_impl; [|exact Ha]. simpl; lia.
      * constructor.
      * now constructor.
Qed.

Lemma sorted_constant v l :
  sorted l -> Forall (fun x => x = v) l -> l = [] \/ l = [v].
Proof.
  intros Hs Hv. destruct l as [|a [|b l]]; auto.
  - inversion Hv; subst. now right.
  - inversion Hv as [|? ? -> Hv']; subst. inversion Hv' as [|? ? -> _]; subst.
    inversion Hs as [|? ? _ Hlt]; subst. inversion Hlt; subst. lia.
Qed.

Lemma sorted_pieces start end_ l :
  sorted l -> start < end_ ->
  exists P A Mid B S,
    l = P ++ A ++ Mid ++ B ++ S /\ pieces start end_ P A Mid B S /\
    sorted P /\ sorted S.
Proof.
  intros Hs Hlt.
  destruct (sorted_split start l Hs) as (P & R & -> & FP & FR & SP & SR).
  destruct (sorted_split (start + 1) R SR) as (A & R2 & -> & FA & FR2 & SA & SR2).
  destruct (sorted_split end_ R2 SR2) as (Mid & T & -> & FM & FT & SM & ST).
  destruct (sorted_split (end_ + 1) T ST) as (B & S & -> & FB & FS & SB & SS).
  exists P, A, Mid, B, S. repeat split; auto.
  - apply Forall_app in FR as [FA' _].
    apply (sorted_constant start A SA).
    rewrite Forall_forall in *. intros x Hx.
    specialize (FA x Hx). specialize (FA' x Hx). simpl in *. lia.
  - apply Forall_app in FR2 as [FM' _].
    rewrite Forall_forall in *. intros x Hx.
    specialize (FM x Hx). specialize (FM' x Hx). simpl in *. lia.
  - apply Forall_app in FT as [FB' _].
    apply (sorted_constant end_ B SB).
    rewrite Forall_forall in *. intros x Hx.
    specialize (FB x Hx). specialize (FB' x Hx). simpl in *. lia.
  - eapply Forall_impl; [|exact FS]. simpl; lia.
Qed.

Lemma sorted_opt_cons b v l :
  sorted l -> Forall (fun x => v < x) l -> sorted (opt b v ++ l).
Proof. destruct b; simpl; auto. now constructor. Qed.

Lemma Forall_opt (Q : Z -> Prop) b v : Q v -> Forall Q (opt b v).
Proof. destruct b; simpl; auto. Qed.

Lemma sorted_result start end_ P S b1 b2 :
  start < end_ -> sorted P -> sorted S ->
  Forall (fun x => x < start) P -> Forall (fun x => end_ < x) S ->
  sorted (P ++ opt b1 start ++ opt b2 end_ ++ S).
Proof.
  intros Hlt SP SS FP FS.
  assert (F2 : Forall (fun x => start < x) (opt b2 end_ ++ S)).
  { apply Forall_app; split; [now apply Forall_opt|].
    eapply Forall_impl; [|exact FS]. simpl; lia. }
  apply (sorted_app_sep start); auto.
  - apply sorted_opt_cons; [now apply sorted_opt_cons|exact F2].
  - apply Forall_app; split; [apply Forall_opt; lia|].
    eapply Forall_impl; [|exact F2]. simpl; lia.
Qed.

Lemma sorted_ext l1 : forall l2,
  sorted l1 -> sorted l2 -> (forall x, In x l1 <-> In x l2) -> l1 = l2.
Proof.
  induction l1 as [|a l1 IH]; intros [|b l2] H1 H2 Hin.
  - reflexivity.
  - destruct (proj2 (Hin b)); simpl; auto.
  - destruct (proj1 (Hin a)); simpl; auto.
  - inversion H1 as [|? ? S1 F1]; inversion H2 as [|? ? S2 F2]; subst.
    rewrite Forall_forall in F1, F2.
    assert (a = b) as ->.
    { destruct (proj1 (Hin a) (or_introl eq_refl)) as [|Ha]; [congruence|].
      destruct (proj2 (Hin b) (or_introl eq_refl)) as [|Hb]; [congruence|].
      apply F2 in Ha. apply F1 in Hb. lia. }
    f_equal. apply IH; auto. intros x. split; intros Hx.
    + destruct (proj1 (Hin x) (or_intror Hx)) as [<-|]; auto.
      apply F1 in Hx. lia.
    + destruct (proj2 (Hin x) (or_intror Hx)) as [<-|]; auto.
      apply F2 in Hx. lia.
Qed.

(** ** Membership as the parity of the boundaries passed *)

Lemma below_app l1 l2 x : below (l1 ++ l2) x = (below l1 x + below l2 x)%nat.
Proof. unfold below. now rewrite filter_app, length_app. Qed.

Lemma below_cons a l x :
  below (a :: l) x = ((if (a <=? x)%Z then 1 else 0) + below l x)%nat.
Proof. unfold below. simpl. now destruct (a <=? x). Qed.

Lemma below_all l x : Forall (fun e => e <= x) l -> below l x = List.length l.
Proof.
  induction 1 as [|a l Ha _ IH]; [reflexivity|].
  rewrite below_cons, IH. apply Z.leb_le in Ha. now rewrite Ha.
Qed.

Lemma below_none l x : Forall (fun e => x < e) l -> below l x = 0%nat.
Proof.
  induction 1 as [|a l Ha _ IH]; [reflexivity|].
  rewrite below_cons, IH. apply Z.leb_gt in Ha. now rewrite Ha.
Qed.

Lemma odd_below_opt b v x : Nat.odd (below (opt b v) x) = b && (v <=? x).
Proof.
  destruct b; [|reflexivity]. unfold opt.
  rewrite below_cons. now destruct (v <=? x).
Qed.

Lemma pair_ind (Q : list Z -> Prop) :
  Q [] -> (forall a, Q [a]) -> (forall a b l, Q l -> Q (a :: b :: l)) ->
  forall l, Q l.
Proof.
  intros H0 H1 H2.
  assert (H : forall l, Q l /\ forall a, Q (a :: l)).
  { induction l as [|b l [IH1 IH2]]; split; auto. }
  intros l. apply H.
Qed.

Lemma member_parity l x :
  sorted l -> Nat.even (List.length l) = true ->
  member l x = Nat.odd (below l x).
Proof.
  induction l as [|a|s e l IH] using pair_ind; intros Hs Hev.
  - reflexivity.
  - discriminate.
  - inversion Hs as [|? ? Hs' Fs]; subst.
    inversion Hs' as [|? ? Hs'' Fe]; subst.
    inversion Fs as [|? ? Hse _]; subst.
    unfold member. cbn [intervals existsb]. fold (member l x).
    rewrite IH by auto. rewrite !below_cons. unfold in_interval. cbn [fst snd].
    destruct (Z.leb_spec s x), (Z.ltb_spec x e), (Z.leb_spec e x); try lia;
      cbn [andb orb]; try reflexivity.
    rewrite below_none; [reflexivity|].
    eapply Forall_impl; [|exact Fe]. simpl; lia.
Qed.

Lemma add_result_even start end_ P A Mid B S :
  Nat.even (List.length (P ++ A ++ Mid ++ B ++ S)) = true ->
  Nat.even (List.length (add_result start end_ P A Mid B S)) = true.
Proof.
  unfold add_result. rewrite !length_app, !Nat.add_assoc.
  rewrite !Nat.even_add.
  generalize (Nat.even (List.length P)), (Nat.even (List.length A)),
    (Nat.even (List.length Mid)), (Nat.even (List.length B)),
    (Nat.even (List.length S)).
  now intros [] [] [] [] [].
Qed.

Lemma remove_result_even start end_ P A Mid B S :
  Nat.even (List.length (P ++ A ++ Mid ++ B ++ S)) = true ->
  Nat.even (List.length (remove_result start end_ P A Mid B S)) = true.
Proof.
  unfold remove_result. rewrite !length_app, !Nat.add_assoc.
  rewrite !Nat.even_add, !Nat.odd_add, <- !Nat.negb_even.
  generalize (Nat.even (List.length P)), (Nat.even (List.length A)),
    (Nat.even (List.length Mid)), (Nat.even (List.length B)),
    (Nat.even (List.length S)).
  now intros [] [] [] [] [].
Qed.

Lemma add_result_member start end_ P A Mid B S x :
  start < end_ -> pieces start end_ P A Mid B S ->
  Nat.odd (below (add_result start end_ P A Mid B S) x)
  = Nat.odd (below (P ++ A ++ Mid ++ B ++ S) x)
    || ((start <=? x) && (x <? end_)).
Proof.
  intros Hlt Hp.
  pose proof (pieces_A _ _ _ _ _ _ _ Hp (fun e => e = start) eq_refl) as FA.
  pose proof (pieces_B _ _ _ _ _ _ _ Hp (fun e => e = end_) eq_refl) as FB.
  destruct Hp as (FP & _ & FM & _ & FS).
  unfold add_result.
  rewrite !below_app, !Nat.odd_add, !odd_below_opt.
  split_range x start end_.
  - (* start <= x < end_ *)
    rewrite (below_all P), (below_none S) by (bounded FP || bounded FS).
    rewrite andb_true_r, andb_false_r, orb_true_r, <- Nat.negb_odd.
    now destruct (Nat.odd (List.length P)).
  - (* end_ <= x *)
    rewrite (below_all P), (below_all A), (below_all Mid), (below_all B)
      by (bounded FP || bounded FA || bounded FM || bounded FB).
    rewrite !andb_true_r, orb_false_r. parity_atoms.
  - (* x < start *)
    rewrite (below_none A), (below_none Mid), (below_none B), (below_none S)
      by (bounded FA || bounded FM || bounded FB || bounded FS).
    rewrite !andb_false_r, orb_false_r. reflexivity.
Qed.

Lemma remove_result_member start end_ P A Mid B S x :
  start < end_ -> pieces start end_ P A Mid B S ->
  Nat.odd (below (remove_result start end_ P A Mid B S) x)
  = Nat.odd (below (P ++ A ++ Mid ++ B ++ S) x)
    && negb ((start <=? x) && (x <? end_)).
Proof.
  intros Hlt Hp.
  pose proof (pieces_A _ _ _ _ _ _ _ Hp (fun e => e = start) eq_refl) as FA.
  pose proof (pieces_B _ _ _ _ _ _ _ Hp (fun e => e = end_) eq_refl) as FB.
  destruct Hp as (FP & _ & FM & _ & FS).
  unfold remove_result.
  rewrite !below_app, !Nat.odd_add, !odd_below_opt.
  split_range x start end_.
  - (* start <= x < end_ *)
    rewrite (below_all P), (below_none S) by (bounded FP || bounded FS).
    rewrite andb_true_r, !andb_false_r.
    now destruct (Nat.odd (List.length P)).
  - (* end_ <= x *)
    rewrite (below_all P), (below_all A), (below_all Mid), (below_all B)
      by (bounded FP || bounded FA || bounded FM || bounded FB).
    rewrite !andb_true_r. parity_atoms.
  - (* x < start *)
    rewrite (below_none A), (below_none Mid), (below_none B), (below_none S)
      by (bounded FA || bounded FM || bounded FB || bounded FS).
    rewrite !andb_false_r, andb_true_r. reflexivity.
Qed.

(** ** A set has one representation *)

Lemma below_step l e : below l e = (below l (e - 1) + occurrences l e)%nat.
Proof.
  induction l as [|a l IH]; [reflexivity|].
  rewrite !below_cons, IH. unfold occurrences. simpl.
  destruct (Z.leb_spec a e), (Z.leb_spec a (e - 1)), (Z.eqb_spec a e);
    simpl; lia.
Qed.

Lemma occurrences_absent l e : ~ In e l -> occurrences l e = 0%nat.
Proof.
  induction l as [|a l IH]; intros Hn; [reflexivity|].
  unfold occurrences in *. simpl.
  destruct (Z.eqb_spec a e) as [-> | _]; [destruct Hn; now left|].
  apply IH. intros H. apply Hn. now right.
Qed.

Lemma occurrences_sorted l e : sorted l -> In e l -> occurrences l e = 1%nat.
Proof.
  induction 1 as [|a l Hs IH Fa]; intros Hin; [destruct Hin|].
  unfold occurrences in *. simpl.
  destruct (Z.eqb_spec a e) as [-> | Hne].
  - simpl. f_equal. apply occurrences_absent.
    intros H. rewrite Forall_forall in Fa. apply Fa in H. lia.
  - destruct Hin as [-> | Hin]; [congruence|]. now apply IH.
Qed.

Lemma In_parity l e :
  sorted l -> In e l <-> Nat.odd (below l e) <> Nat.odd (below l (e - 1)).
Proof.
  intros Hs. rewrite below_step, Nat.odd_add. split.
  - intros Hin. rewrite (occurrences_sorted l e Hs Hin).
    now destruct (Nat.odd (below l (e - 1))).
  - intros Hne. destruct (in_dec Z.eq_dec e l) as [Hin | Hn]; [exact Hin|].
    rewrite (occurrences_absent l e Hn) in Hne.
    now destruct (Nat.odd (below l (e - 1))).
Qed.

Lemma parity_canonical l1 l2 :
  sorted l1 -> sorted l2 ->
  (forall x, Nat.odd (below l1 x) = Nat.odd (below l2 x)) -> l1 = l2.
Proof.
  intros H1 H2 H. apply sorted_ext; auto.
  intros x. now rewrite !In_parity, !H by assumption.
Qed.

Lemma invariant_spec l :
  invariant l = true <-> Nat.even (List.length l) = true /\ sorted l.
Proof.
  unfold invariant. now rewrite andb_true_iff, increasing_sorted.
Qed.

Lemma member_canonical l1 l2 :
  invariant l1 = true -> invariant l2 = true ->
  (forall x, member l1 x = member l2 x) -> l1 = l2.
Proof.
  intros [E1 S1]%invariant_spec [E2 S2]%invariant_spec H.
  apply parity_canonical; auto.
  intros x. rewrite <- !member_parity by assumption. apply H.
Qed.

(** ** The operations return on every list *)

Lemma prefix_split v l :
  exists lo hi, l = lo ++ hi /\ Forall (fun x => x < v) lo /\ head_ge v hi.
Proof.
  induction l as [|a l (lo & hi & -> & Flo & Hhi)].
  - exists [], []. repeat split. constructor.
  - destruct (Z_lt_le_dec a v) as [Hav | Hva].
    + exists (a :: lo), hi. repeat split; auto.
    + exists [], (a :: lo ++ hi). repeat split; auto.
Qed.

(** The cut that the general path works on, for any list whose last element
    is not below [start]. *)
Lemma general_split start end_ l z :
  py_last l = Some z -> start <= z ->
  exists P A Mid T,
    l = P ++ A ++ Mid ++ T /\
    Forall (fun x => x < start) P /\
    ((A = [] /\ head_gt start (Mid ++ T)) \/ A = [start]) /\
    Forall (fun x => x < end_) Mid /\ head_ge end_ T.
Proof.
  intros Hz Hsz.
  destruct (prefix_split start l) as (P & R & -> & FP & HR).
  destruct R as [|r R].
  - exfalso. rewrite app_nil_r in Hz.
    destruct (snoc_cases P) as [-> | (P' & z' & ->)]; [discriminate|].
    rewrite py_last_snoc in Hz. injection Hz as ->.
    apply Forall_app in FP as [_ Hz]. inversion Hz; subst. lia.
  - simpl in HR. destruct (Z.eq_dec r start) as [-> | Hne].
    + destruct (prefix_split end_ R) as (Mid & T & -> & FM & HT).
      exists P, [start], Mid, T. repeat split; auto.
    + destruct (prefix_split end_ (r :: R)) as (Mid & T & E & FM & HT).
      exists P, [], Mid, T. rewrite <- E. repeat split; auto.
      left. split; auto. simpl. lia.
Qed.

Lemma addInterval_total l lg fuel start end_ :
  start < end_ -> (List.length l < fuel)%nat ->
  exists l' lg',
    addInterval fuel start end_ (mkProgram l lg) = Ok tt (mkProgram l' lg')
    /\ only_debug_added lg lg'.
Proof.
  intros Hlt Hfuel. unfold addInterval. rewrite geb_false by lia.
  destruct l as [|f F].
  - exists [start; end_], lg. split; [reflexivity|apply only_debug_added_refl].
  - destruct (py_last (f :: F)) as [z|] eqn:Hz; [|discriminate].
    unfold bind at 1. unfold list_len at 1. mstep.
    cbn [List.length Nat.eqb]. unfold bind at 1. unfold bind at 1.
    unfold list_last at 1. mstep. rewrite Hz. unfold ret at 1.
    destruct (Z.ltb_spec z start) as [Hzs | Hzs]; mstep.
    + do 2 eexists. split; [reflexivity|apply only_debug_added_refl].
    + unfold bind at 1. unfold list_get at 1. mstep. cbn [nth_error].
      destruct (f >? end_).
      * do 2 eexists. split; [reflexivity|apply only_debug_added_refl].
      * destruct (general_split start end_ _ z Hz Hzs)
          as (P & A & Mid & T & E & FP & HA & FM & HT).
        rewrite E in *. rewrite add_general_run by auto.
        do 2 eexists. split; [reflexivity|apply only_debug_added_emit].
Qed.

Lemma removeInterval_total l lg fuel start end_ :
  start < end_ -> (List.length l < fuel)%nat ->
  exists l' lg',
    removeInterval fuel start end_ (mkProgram l lg) = Ok tt (mkProgram l' lg')
    /\ only_debug_added lg lg'.
Proof.
  intros Hlt Hfuel. unfold removeInterval. rewrite geb_false by lia.
  destruct l as [|f F].
  - exists [], lg. split; [reflexivity|apply only_debug_added_refl].
  - destruct (py_last (f :: F)) as [z|] eqn:Hz; [|discriminate].
    unfold bind at 1. unfold list_len at 1. mstep.
    cbn [List.length Nat.eqb]. unfold bind at 1. unfold bind at 1.
    unfold list_last at 1. mstep. rewrite Hz. unfold ret at 1.
    destruct (Z.ltb_spec z start) as [Hzs | Hzs]; mstep.
    + do 2 eexists. split; [reflexivity|apply only_debug_added_refl].
    + destruct (general_split start end_ _ z Hz Hzs)
        as (P & A & Mid & T & E & FP & HA & FM & HT).
      rewrite E in *. rewrite remove_general_run by auto.
      do 2 eexists. split; [reflexivity|apply only_debug_added_emit].
Qed.

(** ** The operations on a list that satisfies the invariant *)

Lemma opt_length b v : (List.length (opt b v) <= 1)%nat.
Proof. destruct b; simpl; lia. Qed.

Lemma result_length P A Mid B S b1 b2 (v1 v2 : Z) :
  (List.length (P ++ opt b1 v1 ++ opt b2 v2 ++ S)
   <= List.length (P ++ A ++ Mid ++ B ++ S) + 2)%nat.
Proof.
  rewrite !length_app.
  pose proof (opt_length b1 v1). pose proof (opt_length b2 v2). lia.
Qed.

Lemma addInterval_invariant l lg fuel start end_ :
  invariant l = true -> start < end_ -> (List.length l < fuel)%nat ->
  exists l' lg',
    addInterval fuel start end_ (mkProgram l lg) = Ok tt (mkProgram l' lg')
    /\ only_debug_added lg lg'
    /\ invariant l' = true
    /\ (List.length l' <= List.length l + 2)%nat
    /\ forall x, member l' x = member l x || ((start <=? x) && (x <? end_)).
Proof.
  intros [Hev Hs]%invariant_spec Hlt Hfuel.
  destruct (sorted_pieces start end_ l Hs Hlt)
    as (P & A & Mid & B & S & -> & Hp & SP & SS).
  destruct (add_run_pieces start end_ P A Mid B S lg fuel Hlt Hp Hev Hfuel)
    as (lg' & Hrun & Hlg).
  assert (Hs' : sorted (add_result start end_ P A Mid B S)).
  { destruct Hp as (FP & _ & _ & _ & FS). now apply sorted_result. }
  pose proof (add_result_even start end_ P A Mid B S Hev) as Hev'.
  exists (add_result start end_ P A Mid B S), lg'.
  split; [exact Hrun|]. split; [exact Hlg|].
  split; [now apply invariant_spec|]. split; [apply result_length|].
  intros x. rewrite !member_parity by assumption.
    now apply add_result_member.
Qed.

Lemma removeInterval_invariant l lg fuel start end_ :
  invariant l = true -> start < end_ -> (List.length l < fuel)%nat ->
  exists l' lg',
    removeInterval fuel start end_ (mkProgram l lg) = Ok tt (mkProgram l' lg')
    /\ only_debug_added lg lg'
    /\ invariant l' = true
    /\ (List.length l' <= List.length l + 2)%nat
    /\ forall x,
        member l' x = member l x && negb ((start <=? x) && (x <? end_)).
Proof.
  intros [Hev Hs]%invariant_spec Hlt Hfuel.
  destruct (sorted_pieces start end_ l Hs Hlt)
    as (P & A & Mid & B & S & -> & Hp & SP & SS).
  destruct (remove_run_pieces start end_ P A Mid B S lg fuel Hlt Hp Hev Hfuel)
    as (lg' & Hrun & Hlg).
  assert (Hs' : sorted (remove_result start end_ P A Mid B S)).
  { destruct Hp as (FP & _ & _ & _ & FS). now apply sorted_result. }
  pose proof (remove_result_even start end_ P A Mid B S Hev) as Hev'.
  exists (remove_result start end_ P A Mid B S), lg'.
  split; [exact Hrun|]. split; [exact Hlg|].
  split; [now apply invariant_spec|]. split; [apply result_length|].
  intros x. rewrite !member_parity by assumption.
    now apply remove_result_member.
Qed.

(** ** The output of [printIntervals] *)

Lemma div2_succ_even n : Nat.even n = true -> Nat.div2 (S n) = Nat.div2 n.
Proof.
  intros [k ->]%Nat.even_spec.
  now rewrite Nat.div2_succ_double, Nat.div2_double.
Qed.

Lemma for_each_pairs rest : forall done j acc lg,
  List.length done = (2 * j)%nat -> Nat.even (List.length rest) = true ->
  for_each (map (fun k => 2 * k)%nat (seq j (Nat.div2 (List.length rest))))
           format_step acc (mkProgram (done ++ rest) lg)
  = Ok (acc ++ flat_map cell (intervals rest)) (mkProgram (done ++ rest) lg).
Proof.
  induction rest as [|a|a b rest IH] using pair_ind;
    intros done j acc lg Hlen Hev.
  - cbn [List.length Nat.div2 seq map for_each intervals flat_map].
    rewrite !app_nil_r. reflexivity.
  - discriminate.
  - cbn [List.length Nat.div2 seq map for_each intervals flat_map].
    unfold bind at 1. unfold format_step at 1. mred.
    rewrite <- Hlen, nth_error_at. mstep.
    replace (done ++ a :: b :: rest) with ((done ++ [a]) ++ b :: rest)
      by (now rewrite <- app_assoc).
    rewrite <- (length_snoc done a), nth_error_at. mstep.
    replace ((done ++ [a]) ++ b :: rest) with ((done ++ [a; b]) ++ rest)
      by (now rewrite <- !app_assoc).
    rewrite (IH (done ++ [a; b]) (S j)); auto.
    + unfold cell at 2. cbn [fst snd]. now rewrite <- !app_assoc.
    + rewrite length_app. simpl. lia.
Qed.

Lemma printIntervals_run l lg :
  Nat.even (List.length l) = true ->
  printIntervals (mkProgram l lg)
  = Ok tt (mkProgram l
             (logger_emit
                (mkRecord INFO "Intervals: %s"
                          [AStr (String.concat "" (output_list l))])
                (logger_emit (mkRecord DEBUG "Intervals list: %s" [AList l])
                             lg))).
Proof.
  intros Hev. unfold printIntervals.
  unfold bind at 1. unfold list_snapshot at 1. mstep.
  unfold bind at 1. unfold log at 1. mstep.
  unfold bind at 1. unfold list_len at 1. mstep.
  unfold range_step2. rewrite div2_succ_even by assumption.
  unfold bind at 1.
  rewrite (for_each_pairs l [] 0%nat) by auto.
  unfold bind at 1. unfold list_len at 1. mstep.
  destruct l as [|a l]; [reflexivity|].
  cbn [List.length Nat.eqb]. reflexivity.
Qed.

Lemma string_app_assoc (a b c : string) :
  ((a ++ b) ++ c = a ++ (b ++ c))%string.
Proof. induction a as [|ch a IH]; simpl; [reflexivity|now rewrite IH]. Qed.

Lemma concat_cells t : forall i,
  String.concat ""
    (removelast (format_pair i :: ","%string :: flat_map cell t)
       ++ ["]"%string])
  = (String.concat "," (map format_pair (i :: t)) ++ "]")%string.
Proof.
  induction t as [|i' t IH]; intros i.
  - simpl. reflexivity.
  - specialize (IH i').
    change (flat_map cell (i' :: t))
      with (format_pair i' :: ","%string :: flat_map cell t).
    change (removelast (format_pair i :: ","%string :: format_pair i'
                          :: ","%string :: flat_map cell t))
      with (format_pair i :: ","%string
              :: removelast (format_pair i' :: ","%string :: flat_map cell t)).
    change (map format_pair (i :: i' :: t))
      with (format_pair i :: map format_pair (i' :: t)).
    set (X := removelast (format_pair i' :: ","%string :: flat_map cell t)
                ++ ["]"%string]) in *.
    assert (HX : X <> []) by (subst X; apply not_eq_sym, app_cons_not_nil).
    change ((format_pair i :: ","%string :: removelast
               (format_pair i' :: ","%string :: flat_map cell t))
              ++ ["]"%string])
      with (format_pair i :: ","%string :: X).
    destruct X as [|x X]; [congruence|].
    change (String.concat "" (format_pair i :: ","%string :: x :: X))
      with (format_pair i ++ "" ++ "," ++ "" ++ String.concat "" (x :: X))%string.
    rewrite IH.
    change (String.concat "," (format_pair i :: map format_pair (i' :: t)))
      with (format_pair i ++ ","
              ++ String.concat "," (map format_pair (i' :: t)))%string.
    rewrite !string_app_assoc. reflexivity.
Qed.

Lemma output_list_rendering l :
  Nat.even (List.length l) = true ->
  String.concat "" (output_list l) = rendering l.
Proof.
  intros Hev. unfold rendering.
  destruct l as [|a [|b l]]; [reflexivity|discriminate|].
  unfold output_list. cbn [intervals flat_map].
  change (cell (a, b) ++ flat_map cell (intervals l))
    with (format_pair (a, b) :: ","%string :: flat_map cell (intervals l)).
  set (t := intervals l).
  change (removelast ("["%string :: format_pair (a, b) :: ","%string
                        :: flat_map cell t))
    with ("["%string :: removelast (format_pair (a, b) :: ","%string
                                      :: flat_map cell t)).
  pose proof (concat_cells t (a, b)) as H.
  set (X := removelast (format_pair (a, b) :: ","%string :: flat_map cell t)
              ++ ["]"%string]) in *.
  assert (HX : X <> []) by (subst X; apply not_eq_sym, app_cons_not_nil).
  change (("["%string :: removelast (format_pair (a, b) :: ","%string
                                       :: flat_map cell t)) ++ ["]"%string])
    with ("["%string :: X).
  destruct X as [|x X]; [congruence|].
  change (String.concat "" ("["%string :: x :: X))
    with ("[" ++ "" ++ String.concat "" (x :: X))%string.
  rewrite H. reflexivity.
Qed.

(** ** Sequences of calls *)

Lemma invariant_intervals l :
  invariant l = true ->
  nonempty_intervals (intervals l) = true /\ gaps (intervals l) = true.
Proof.
  unfold invariant. intros [Hev Hinc]%andb_prop. revert Hev Hinc.
  induction l as [|a|s e l IH] using pair_ind; intros Hev Hinc.
  - split; reflexivity.
  - discriminate.
  - change (increasing (s :: e :: l)) with ((s <? e) && increasing (e :: l))
      in Hinc.
    apply andb_prop in Hinc as [Hse Hinc].
    assert (Hl : increasing l = true).
    { destruct l as [|b l]; [reflexivity|].
      change (increasing (e :: b :: l)) with ((e <? b) && increasing (b :: l))
        in Hinc.
      now apply andb_prop in Hinc as [_ Hinc]. }
    destruct (IH Hev Hl) as [IH1 IH2].
    cbn [intervals]. unfold nonempty_intervals in *. cbn [forallb fst snd].
    rewrite Hse, IH1. split; [reflexivity|].
    destruct l as [|b [|c l]]; try reflexivity.
    cbn [intervals] in *.
    change (gaps ((s, e) :: (b, c) :: intervals l))
      with ((e <? b) && gaps ((b, c) :: intervals l)).
    rewrite IH2.
    change (increasing (e :: b :: c :: l))
      with ((e <? b) && increasing (b :: c :: l)) in Hinc.
    apply andb_prop in Hinc as [-> _]. reflexivity.
Qed.

Lemma exec_all_invariant cs : forall l lg fuel,
  forallb valid cs = true -> invariant l = true ->
  (List.length l + 2 * List.length cs < fuel)%nat ->
  exists l' lg',
    exec_all fuel cs (mkProgram l lg) = Ok tt (mkProgram l' lg')
    /\ invariant l' = true.
Proof.
  induction cs as [|c cs IH]; intros l lg fuel Hv Hinv Hfuel.
  - exists l, lg. split; [reflexivity|exact Hinv].
  - cbn [forallb] in Hv. apply andb_prop in Hv as [Hc Hv].
    cbn [List.length] in Hfuel.
    assert (Hstep : exists l1 lg1,
               exec fuel c (mkProgram l lg) = Ok tt (mkProgram l1 lg1)
               /\ invariant l1 = true
               /\ (List.length l1 <= List.length l + 2)%nat).
    { destruct c as [s e | s e]; simpl in Hc; apply Z.ltb_lt in Hc; cbn [exec].
      - destruct (addInterval_invariant l lg fuel s e Hinv Hc)
          as (l1 & lg1 & H1 & _ & H2 & H3 & _); [lia|]. eauto.
      - destruct (removeInterval_invariant l lg fuel s e Hinv Hc)
          as (l1 & lg1 & H1 & _ & H2 & H3 & _); [lia|]. eauto. }
    destruct Hstep as (l1 & lg1 & H1 & Hinv1 & Hlen1).
    destruct (IH l1 lg1 fuel Hv Hinv1) as (l' & lg' & H' & Hinv'); [lia|].
    exists l', lg'. split; [|exact Hinv'].
    cbn [exec_all]. unfold bind. now rewrite H1.
Qed.

Lemma add_commands_union ivs : forall l lg fuel,
  nonempty_intervals ivs = true -> invariant l = true ->
  (List.length l + 2 * List.length ivs < fuel)%nat ->
  exists l' lg',
    exec_all fuel (add_commands ivs) (mkProgram l lg)
    = Ok tt (mkProgram l' lg')
    /\ invariant l' = true
    /\ forall x, member l' x = member l x || existsb (in_interval x) ivs.
Proof.
  induction ivs as [|[s e] ivs IH]; intros l lg fuel Hv Hinv Hfuel.
  - exists l, lg. repeat split; auto. intros x. now rewrite orb_false_r.
  - unfold nonempty_intervals in Hv. cbn [forallb fst snd] in Hv.
    apply andb_prop in Hv as [Hse%Z.ltb_lt Hv]. cbn [List.length] in Hfuel.
    destruct (addInterval_invariant l lg fuel s e Hinv Hse)
      as (l1 & lg1 & H1 & _ & Hinv1 & Hlen1 & Hm1); [lia|].
    destruct (IH l1 lg1 fuel Hv Hinv1) as (l' & lg' & H' & Hinv' & Hm');
      [lia|].
    exists l', lg'. split; [|split; [exact Hinv'|]].
    + cbn [add_commands map exec_all exec fst snd]. unfold bind.
      rewrite H1. exact H'.
    + intros x. rewrite Hm', Hm1. cbn [existsb]. unfold in_interval at 2.
      cbn [fst snd]. now rewrite orb_assoc.
Qed.

(** ** Largest and smallest endpoint *)

Lemma fold_max_bound t : forall a,
  a <= fold_left Z.max t a /\ Forall (fun e => e <= fold_left Z.max t a) t.
Proof.
  induction t as [|b t IH]; intros a; simpl; [split; [lia|constructor]|].
  destruct (IH (Z.max a b)) as [H1 H2]. split; [lia|].
  constructor; [lia|exact H2].
Qed.

Lemma fold_min_bound t : forall a,
  fold_left Z.min t a <= a /\ Forall (fun e => fold_left Z.min t a <= e) t.
Proof.
  induction t as [|b t IH]; intros a; simpl; [split; [lia|constructor]|].
  destruct (IH (Z.min a b)) as [H1 H2]. split; [lia|].
  constructor; [lia|exact H2].
Qed.

Lemma maximum_bound l m : maximum l = Some m -> Forall (fun e => e <= m) l.
Proof.
  destruct l as [|a t]; [discriminate|]. intros [= <-].
  destruct (fold_max_bound t a). now constructor.
Qed.

Lemma minimum_bound l m : minimum l = Some m -> Forall (fun e => m <= e) l.
Proof.
  destruct l as [|a t]; [discriminate|]. intros [= <-].
  destruct (fold_min_bound t a). now constructor.
Qed.

(** ** What [printIntervals] leaves alone *)

Lemma keeps_ret {A} (a : A) : keeps_list (ret a).
Proof. intros s. reflexivity. Qed.

Lemma keeps_raise {A} e : keeps_list (@raise A e).
Proof. intros s. reflexivity. Qed.

Lemma keeps_bind {A B} (m : M A) (k : A -> M B) :
  keeps_list m -> (forall a, keeps_list (k a)) -> keeps_list (bind m k).
Proof.
  intros Hm Hk s. unfold bind. specialize (Hm s).
  destruct (m s) as [a s1 | e s1 |]; auto.
  specialize (Hk a s1). destruct (k a s1); auto; congruence.
Qed.

Lemma keeps_list_len : keeps_list list_len.
Proof. intros s. reflexivity. Qed.

Lemma keeps_list_get i : keeps_list (list_get i).
Proof. intros s. unfold list_get. now destruct (nth_error _ _). Qed.

Lemma keeps_log lv msg args : keeps_list (log lv msg args).
Proof. intros s. reflexivity. Qed.

Lemma keeps_for_each {I X} (body : I -> X -> M X) xs :
  (forall i x, keeps_list (body i x)) ->
  forall x, keeps_list (for_each xs body x).
Proof.
  intros Hb. induction xs as [|i xs IH]; intros x; cbn [for_each].
  - apply keeps_ret.
  - apply keeps_bind; auto.
Qed.

Lemma keeps_format_step i out : keeps_list (format_step i out).
Proof.
  unfold format_step.
  apply keeps_bind; [apply keeps_list_get|intros a].
  apply keeps_bind; [apply keeps_list_get|intros b]. apply keeps_ret.
Qed.

Lemma keeps_printIntervals : keeps_list printIntervals.
Proof.
  unfold printIntervals.
  apply keeps_bind; [intros s; reflexivity|intros l].
  apply keeps_bind; [apply keeps_log|intros _].
  apply keeps_bind; [apply keeps_list_len|intros n].
  apply keeps_bind; [apply keeps_for_each, keeps_format_step|intros out].
  apply keeps_bind; [apply keeps_list_len|intros n'].
  apply keeps_bind; [|intros out'; apply keeps_log].
  destruct (n' =? 0)%nat; [apply keeps_ret|].
  destruct (set_last out "]"%string); [apply keeps_ret|apply keeps_raise].
Qed.

(** ** The log *)

Lemma no_error_added_refl lg : no_error_added lg lg.
Proof. split; [reflexivity|]. exists []. now rewrite app_nil_r. Qed.

Lemma no_error_added_trans lg1 lg2 lg3 :
  no_error_added lg1 lg2 -> no_error_added lg2 lg3 -> no_error_added lg1 lg3.
Proof.
  intros (L1 & x1 & E1 & F1) (L2 & x2 & E2 & F2). split; [congruence|].
  exists (x1 ++ x2). rewrite E2, E1, app_assoc. split; [reflexivity|].
  now apply Forall_app.
Qed.

Lemma no_error_added_emit lg lv msg args :
  lv <> ERROR -> no_error_added lg (logger_emit (mkRecord lv msg args) lg).
Proof.
  intros Hlv. unfold logger_emit. destruct (_ <=? _)%nat.
  - split; [reflexivity|]. exists [mkRecord lv msg args]. split; auto.
  - apply no_error_added_refl.
Qed.

Lemma only_debug_no_error lg lg' :
  only_debug_added lg lg' -> no_error_added lg lg'.
Proof.
  intros (L & x & E & F). split; [exact L|]. exists x. split; [exact E|].
  eapply Forall_impl; [|exact F]. simpl. intros r ->. discriminate.
Qed.

Lemma emit_error lg msg :
  logger_emit (mkRecord ERROR msg []) lg
  = mkLogger (lg_level lg) (lg_emitted lg ++ [mkRecord ERROR msg []]).
Proof. destruct lg as [[] em]; reflexivity. Qed.

(** ** The loops from any index *)

Lemma below_at_spec v idx s :
  exists b, below_at v idx s = Ok b s
            /\ (b = true -> (idx < List.length (m_IntervalList s))%nat).
Proof.
  unfold below_at. mred.
  destruct (Nat.ltb_spec idx (List.length (m_IntervalList s))) as [Hlt | Hge].
  - destruct (nth_error (m_IntervalList s) idx) as [x|] eqn:E.
    + exists (x <? v). auto.
    + apply nth_error_None in E. lia.
  - exists false. split; [reflexivity|discriminate].
Qed.

Lemma cut_at (l : list Z) idx v :
  (idx <= List.length l)%nat ->
  exists pre mid suf,
    l = pre ++ mid ++ suf /\ List.length pre = idx /\
    Forall (fun x => x < v) mid /\ head_ge v suf.
Proof.
  intros Hle.
  destruct (prefix_split v (skipn idx l)) as (mid & suf & E & Fm & Hs).
  exists (firstn idx l), mid, suf. rewrite <- E, firstn_skipn.
  repeat split; auto. rewrite length_firstn. lia.
Qed.

Lemma search_terminates l lg v idx fuel :
  (List.length l - idx < fuel)%nat ->
  exists idx',
    search fuel v idx (mkProgram l lg) = Ok idx' (mkProgram l lg)
    /\ (idx <= idx')%nat.
Proof.
  intros Hfuel. destruct (le_lt_dec idx (List.length l)) as [Hle | Hgt].
  - destruct (cut_at l idx v Hle) as (pre & mid & suf & -> & <- & Fm & Hs).
    rewrite !length_app in Hfuel.
    rewrite search_run by (auto; lia). eexists. split; [reflexivity|lia].
  - destruct fuel as [|fuel]; [lia|]. exists idx. split; [|lia].
    unfold search. cbn [while]. unfold bind, below_at. mred.
    replace (_ <? _)%nat with false by (symmetry; apply Nat.ltb_ge; lia).
    reflexivity.
Qed.

Lemma delete_interior_terminates l lg v idx fuel :
  (List.length l - idx < fuel)%nat ->
  exists l',
    delete_interior fuel v idx (mkProgram l lg) = Ok idx (mkProgram l' lg)
    /\ (List.length l' <= List.length l)%nat.
Proof.
  intros Hfuel. destruct (le_lt_dec idx (List.length l)) as [Hle | Hgt].
  - destruct (cut_at l idx v Hle) as (pre & mid & suf & -> & <- & Fm & Hs).
    rewrite !length_app in Hfuel.
    rewrite delete_interior_run by (auto; lia).
    eexists. split; [reflexivity|]. rewrite !length_app. lia.
  - destruct fuel as [|fuel]; [lia|]. exists l. split; [|lia].
    unfold delete_interior. cbn [while]. unfold bind, below_at. mred.
    replace (_ <? _)%nat with false by (symmetry; apply Nat.ltb_ge; lia).
    reflexivity.
Qed.

Lemma list_del_shrinks idx l lg :
  (idx < List.length l)%nat ->
  exists l', list_del idx (mkProgram l lg) = Ok tt (mkProgram l' lg)
             /\ S (List.length l') = List.length l.
Proof.
  intros Hlt. unfold list_del, set_list. cbn [m_IntervalList m_Logger].
  replace (_ <? _)%nat with true by (symmetry; now apply Nat.ltb_lt).
  eexists. split; [reflexivity|].
  unfold py_del. rewrite length_app, length_firstn, length_skipn. lia.
Qed.

(** ** Fuel *)

Lemma stable_const {A} (m : M A) : fuel_stable (fun _ => m).
Proof. intros f1 f2 s _. now right. Qed.

Lemma stable_bind {A B} (m : nat -> M A) (k : A -> nat -> M B) :
  fuel_stable m -> (forall a, fuel_stable (k a)) ->
  fuel_stable (fun f => bind (m f) (fun a => k a f)).
Proof.
  intros Hm Hk f1 f2 s Hle. unfold bind.
  destruct (Hm f1 f2 s Hle) as [-> | ->]; [now left|].
  destruct (m f2 s) as [a s1 | e s1 |]; auto. now apply Hk.
Qed.

Lemma stable_while {X} (cond : X -> M bool) (body : X -> M X) x :
  fuel_stable (fun f => while f cond body x).
Proof.
  intros f1. revert x. induction f1 as [|f1 IH]; intros x f2 s Hle;
    [now left|].
  destruct f2 as [|f2]; [lia|]. cbn [while]. unfold bind.
  destruct (cond x s) as [[] s1 | e s1 |]; auto.
  destruct (body x s1) as [x' s2 | e s2 |]; auto.
  apply IH. lia.
Qed.

Lemma stable_search v idx : fuel_stable (fun f => search f v idx).
Proof. apply stable_while. Qed.

Lemma stable_delete_interior v idx :
  fuel_stable (fun f => delete_interior f v idx).
Proof. apply stable_while. Qed.

Lemma stable_locate start end_ : fuel_stable (fun f => locate f start end_).
Proof.
  unfold locate.
  apply (stable_bind (fun f => search f start 0%nat)); [apply stable_search|].
  intros si.
  apply (stable_bind (fun f => search f end_ si)); [apply stable_search|].
  intros ei. apply stable_const.
Qed.

Lemma stable_add_general start end_ :
  fuel_stable (fun f => add_general f start end_).
Proof.
  unfold add_general.
  apply (stable_bind (fun f => locate f start end_)); [apply stable_locate|].
  intros [si ei].
  apply (stable_bind (fun _ => add_start start si)); [apply stable_const|].
  intros cur.
  apply (stable_bind (fun f => delete_interior f end_ cur));
    [apply stable_delete_interior|].
  intros cur'. apply stable_const.
Qed.

Lemma stable_remove_general start end_ :
  fuel_stable (fun f => remove_general f start end_).
Proof.
  unfold remove_general.
  apply (stable_bind (fun f => locate f start end_)); [apply stable_locate|].
  intros [si ei].
  apply (stable_bind (fun _ => remove_start start si)); [apply stable_const|].
  intros cur.
  apply (stable_bind (fun f => delete_interior f end_ cur));
    [apply stable_delete_interior|].
  intros cur'. apply stable_const.
Qed.

Lemma stable_addInterval start end_ :
  fuel_stable (fun f => addInterval f start end_).
Proof.
  unfold addInterval. destruct (start >=? end_); [apply stable_const|].
  apply (stable_bind (fun _ => list_len)); [apply stable_const|]. intros n.
  apply (stable_bind (fun _ => if (n =? 0)%nat then ret true
                               else (z <- list_last ;; ret (z <? start))));
    [apply stable_const|].
  intros [|]; [apply stable_const|].
  apply (stable_bind (fun _ => list_get 0)); [apply stable_const|].
  intros first. destruct (first >? end_); [apply stable_const|].
  apply stable_add_general.
Qed.

Lemma stable_removeInterval start end_ :
  fuel_stable (fun f => removeInterval f start end_).
Proof.
  unfold removeInterval. destruct (start >=? end_); [apply stable_const|].
  apply (stable_bind (fun _ => list_len)); [apply stable_const|]. intros n.
  apply (stable_bind (fun _ => if (n =? 0)%nat then ret true
                               else (z <- list_last ;; ret (z <? start))));
    [apply stable_const|].
  intros [|]; [apply stable_const|].
  apply stable_remove_general.
Qed.

(** With any fuel, a run that would return with enough fuel either runs out
    or returns the same. *)
Lemma stable_ok {A} (m : nat -> M A) s fuel big a s' :
  fuel_stable m -> m big s = Ok a s' ->
  m fuel s = Timeout \/ m fuel s = Ok a s'.
Proof.
  intros Hm Hbig. destruct (Nat.le_ge_cases fuel big) as [Hle | Hge].
  - destruct (Hm fuel big s Hle) as [H | H]; [now left|right; congruence].
  - destruct (Hm big fuel s Hge) as [H | H]; [congruence|right; congruence].
Qed.

(** * Part IV: the claims *)

(** C1 (invariant): starting from the empty list, after any sequence of
    [addInterval] and [removeInterval] calls with [start < end], the run
    returns, the stored list has even length and is strictly increasing, and
    the intervals read off it are non-empty and satisfy
    [end[i] < start[i+1]] for every adjacent pair. *)
Theorem invariant_after_commands (cs : list command) (lg : logger) (fuel : nat) :
  forallb valid cs = true ->
  (2 * List.length cs < fuel)%nat ->
  exists l' lg',
    exec_all fuel cs (mkProgram [] lg) = Ok tt (mkProgram l' lg')
    /\ Nat.even (List.length l') = true
    /\ increasing l' = true
    /\ nonempty_intervals (intervals l') = true
    /\ gaps (intervals l') = true.
Proof.
  intros Hv Hfuel.
  destruct (exec_all_invariant cs [] lg fuel Hv eq_refl)
    as (l' & lg' & Hrun & Hinv); [simpl; lia|].
  exists l', lg'. split; [exact Hrun|].
  destruct (invariant_intervals l' Hinv) as [Hn Hg].
  unfold invariant in Hinv. apply andb_prop in Hinv as [He Hi].
  auto.
Qed.

Lemma invariant_after_commands_witness :
  exists l' lg',
    exec_all 9 [Add 1 3; Add 4 6; Add 3 4; Remove 2 5]
             (mkProgram [] (mkLogger INFO []))
    = Ok tt (mkProgram l' lg')
    /\ Nat.even (List.length l') = true
    /\ increasing l' = true
    /\ nonempty_intervals (intervals l') = true
    /\ gaps (intervals l') = true.
Proof.
  apply (invariant_after_commands
           [Add 1 3; Add 4 6; Add 3 4; Remove 2 5] (mkLogger INFO []) 9%nat).
  - reflexivity.
  - simpl. lia.
Defined.

(** C2 (union): on a list that satisfies the invariant, [addInterval start
    end_] with [start < end_] returns a list that satisfies the invariant
    again (touching and overlapping intervals merged) and represents the old
    set united with [[start, end_)]; and a sequence of such calls yields the
    invariant-satisfying list that represents the union of all the inputs. *)
Theorem addInterval_union (l : list Z) (lg : logger) (fuel : nat)
    (start end_ : Z) (ivs : list (Z * Z)) :
  invariant l = true -> start < end_ ->
  nonempty_intervals ivs = true ->
  (List.length l + 2 * List.length ivs < fuel)%nat ->
  (exists l' lg',
      addInterval fuel start end_ (mkProgram l lg)
      = Ok tt (mkProgram l' lg')
      /\ invariant l' = true
      /\ forall x, member l' x = member l x || in_interval x (start, end_))
  /\
  (exists l' lg',
      exec_all fuel (add_commands ivs) (mkProgram l lg)
      = Ok tt (mkProgram l' lg')
      /\ invariant l' = true
      /\ forall x, member l' x = member l x || existsb (in_interval x) ivs).
Proof.
  intros Hinv Hlt Hv Hfuel. split.
  - destruct (addInterval_invariant l lg fuel start end_ Hinv Hlt)
      as (l' & lg' & H1 & _ & Hinv' & _ & Hm); [lia|].
    exists l', lg'. auto.
  - now apply add_commands_union.
Qed.

Lemma addInterval_union_witness :
  (exists l' lg',
      addInterval 9 3 4 (mkProgram [1; 3; 4; 6] (mkLogger INFO []))
      = Ok tt (mkProgram l' lg')
      /\ invariant l' = true
      /\ forall x, member l' x = member [1; 3; 4; 6] x || in_interval x (3, 4))
  /\
  (exists l' lg',
      exec_all 9 (add_commands [(7, 9); (6, 7)])
               (mkProgram [1; 3; 4; 6] (mkLogger INFO []))
      = Ok tt (mkProgram l' lg')
      /\ invariant l' = true
      /\ forall x, member l' x
                   = member [1; 3; 4; 6] x
                     || existsb (in_interval x) [(7, 9); (6, 7)]).
Proof.
  apply (addInterval_union [1; 3; 4; 6] (mkLogger INFO []) 9%nat 3 4
                           [(7, 9); (6, 7)]).
  - reflexivity.
  - lia.
  - reflexivity.
  - simpl. lia.
Defined.

(** C3 (difference): on a list that satisfies the invariant,
    [removeInterval start end_] with [start < end_] returns a list that
    satisfies the invariant and represents the old set minus
    [[start, end_)]; a removal that meets no stored interval leaves the list
    as it was; and [remove(4, 6)] on [[(1, 10)]] gives [[(1, 4), (6, 10)]]. *)
Theorem removeInterval_difference (l : list Z) (lg : logger) (fuel : nat)
    (start end_ : Z) :
  invariant l = true -> start < end_ -> (List.length l < fuel)%nat ->
  (exists l' lg',
      removeInterval fuel start end_ (mkProgram l lg)
      = Ok tt (mkProgram l' lg')
      /\ invariant l' = true
      /\ (forall x,
             member l' x = member l x && negb (in_interval x (start, end_)))
      /\ ((forall x, start <= x < end_ -> member l x = false) -> l' = l))
  /\ removeInterval 3 4 6 (mkProgram [1; 10] (mkLogger INFO []))
     = Ok tt (mkProgram [1; 4; 6; 10] (mkLogger INFO [])).
Proof.
  intros Hinv Hlt Hfuel. split; [|reflexivity].
  destruct (removeInterval_invariant l lg fuel start end_ Hinv Hlt Hfuel)
    as (l' & lg' & H1 & _ & Hinv' & _ & Hm).
  exists l', lg'. repeat split; auto.
  intros Hdisj. apply member_canonical; auto.
  intros x. rewrite Hm.
  destruct (Z.leb_spec start x), (Z.ltb_spec x end_);
    cbn [andb negb]; rewrite ?andb_true_r, ?andb_false_r; auto.
  symmetry. apply Hdisj. lia.
Qed.

Lemma removeInterval_difference_witness :
  (exists l' lg',
      removeInterval 5 7 12 (mkProgram [5; 10] (mkLogger DEBUG []))
      = Ok tt (mkProgram l' lg')
      /\ invariant l' = true
      /\ (forall x,
             member l' x = member [5; 10] x && negb (in_interval x (7, 12)))
      /\ ((forall x, 7 <= x < 12 -> member [5; 10] x = false) -> l' = [5; 10]))
  /\ removeInterval 3 4 6 (mkProgram [1; 10] (mkLogger INFO []))
     = Ok tt (mkProgram [1; 4; 6; 10] (mkLogger INFO [])).
Proof.
  apply (removeInterval_difference [5; 10] (mkLogger DEBUG []) 5%nat 7 12).
  - reflexivity.
  - lia.
  - simpl. lia.
Defined.

(** C4 (errors): when [start >= end_], [addInterval] and [removeInterval]
    raise nothing and hand nothing back to the caller: they end in the same
    normal return as a valid call, having logged one ERROR record (which
    reaches the log whatever the logging level), and leave the stored list as
    it was, from every state.  No other call logs an error or raises: with
    [start < end_] both return normally from every state and add no ERROR
    record; [clearList] returns normally from every state; [printIntervals]
    returns normally from every state whose list has even length, the empty
    one included. *)
Theorem errors_only_for_invalid_intervals (s : program) (fuel : nat)
    (start end_ : Z) :
  (end_ <= start ->
   addInterval fuel start end_ s
   = Ok tt (mkProgram (m_IntervalList s)
              (mkLogger (lg_level (m_Logger s))
                 (lg_emitted (m_Logger s)
                    ++ [mkRecord ERROR "Error - start >= end" []])))
   /\ removeInterval fuel start end_ s
      = Ok tt (mkProgram (m_IntervalList s)
                 (mkLogger (lg_level (m_Logger s))
                    (lg_emitted (m_Logger s)
                       ++ [mkRecord ERROR "Error: start >= end" []])))
   /\ raised (addInterval fuel start end_ s) = false
   /\ raised (removeInterval fuel start end_ s) = false)
  /\ (start < end_ -> (List.length (m_IntervalList s) < fuel)%nat ->
      (exists s', addInterval fuel start end_ s = Ok tt s'
                  /\ no_error_added (m_Logger s) (m_Logger s'))
      /\ (exists s', removeInterval fuel start end_ s = Ok tt s'
                     /\ no_error_added (m_Logger s) (m_Logger s')))
  /\ (exists s', clearList s = Ok tt s'
                 /\ m_IntervalList s' = []
                 /\ no_error_added (m_Logger s) (m_Logger s'))
  /\ (Nat.even (List.length (m_IntervalList s)) = true ->
      exists s', printIntervals s = Ok tt s'
                 /\ no_error_added (m_Logger s) (m_Logger s')).
Proof.
  destruct s as [l lg]. cbn [m_IntervalList m_Logger].
  assert (Hprint : forall l0 lg0, Nat.even (List.length l0) = true ->
            exists s', printIntervals (mkProgram l0 lg0) = Ok tt s'
                       /\ m_IntervalList s' = l0
                       /\ no_error_added lg0 (m_Logger s')).
  { intros l0 lg0 Hev. eexists. split; [now apply printIntervals_run|].
    split; [reflexivity|]. cbn [m_Logger].
    eapply no_error_added_trans; apply no_error_added_emit; discriminate. }
  split; [|split; [|split]].
  - intros Hle. unfold addInterval, removeInterval.
    rewrite geb_true by lia. unfold log. cbn [m_IntervalList m_Logger].
    rewrite !emit_error. repeat split.
  - intros Hlt Hfuel. split.
    + destruct (addInterval_total l lg fuel start end_ Hlt Hfuel)
        as (l' & lg' & H & Hlg).
      eexists. split; [exact H|]. now apply only_debug_no_error.
    + destruct (removeInterval_total l lg fuel start end_ Hlt Hfuel)
        as (l' & lg' & H & Hlg).
      eexists. split; [exact H|]. now apply only_debug_no_error.
  - destruct (Hprint [] lg eq_refl) as (s' & H & Hl & Hlg).
    exists s'. unfold clearList, bind, list_clear, set_list.
    cbn [m_IntervalList m_Logger]. auto.
  - intros Hev. destruct (Hprint l lg Hev) as (s' & H & _ & Hlg). eauto.
Qed.

Lemma errors_only_for_invalid_intervals_witness :
  (addInterval 0 5 5 (mkProgram [1; 10] (mkLogger INFO []))
   = Ok tt (mkProgram [1; 10]
              (mkLogger INFO [mkRecord ERROR "Error - start >= end" []]))
   /\ removeInterval 0 5 3 (mkProgram [1; 10] (mkLogger INFO []))
      = Ok tt (mkProgram [1; 10]
                 (mkLogger INFO [mkRecord ERROR "Error: start >= end" []]))
   /\ raised (addInterval 0 5 5 (mkProgram [1; 10] (mkLogger INFO [])))
      = false
   /\ raised (removeInterval 0 5 3 (mkProgram [1; 10] (mkLogger INFO [])))
      = false)
  /\ (exists s', addInterval 1 5 7 init = Ok tt s'
                 /\ no_error_added (m_Logger init) (m_Logger s'))
  /\ (exists s', removeInterval 1 5 7 init = Ok tt s'
                 /\ no_error_added (m_Logger init) (m_Logger s'))
  /\ (exists s', clearList init = Ok tt s'
                 /\ m_IntervalList s' = []
                 /\ no_error_added (m_Logger init) (m_Logger s'))
  /\ (exists s', printIntervals init = Ok tt s'
                 /\ no_error_added (m_Logger init) (m_Logger s')).
Proof.
  pose proof (errors_only_for_invalid_intervals
                (mkProgram [1; 10] (mkLogger INFO [])) 0%nat 5 5)
    as (Ha & _).
  pose proof (errors_only_for_invalid_intervals
                (mkProgram [1; 10] (mkLogger INFO [])) 0%nat 5 3)
    as (Hr & _).
  pose proof (errors_only_for_invalid_intervals init 1%nat 5 7)
    as (_ & Hok & Hclear & Hprint).
  destruct Ha as (Ha1 & _ & Ha3 & _); [lia|].
  destruct Hr as (_ & Hr2 & _ & Hr4); [lia|].
  split; [split; [exact Ha1|split; [exact Hr2|split; [exact Ha3|exact Hr4]]]|].
  destruct Hok as [H1 H2]; [lia|simpl; lia|].
  split; [exact H1|]. split; [exact H2|]. split; [exact Hclear|].
  apply Hprint. reflexivity.
Defined.

(** [addInterval 5 5] and [removeInterval 5 3] on the list [[1; 10]] do not
    signal an error to their caller: neither raises, and each returns the
    value that the valid call [addInterval 5 7] returns; the error is a
    record in the log and nothing else. *)
Lemma invalid_interval_not_signalled :
  raised (addInterval 0 5 5 (mkProgram [1; 10] (mkLogger INFO []))) = false
  /\ raised (removeInterval 0 5 3 (mkProgram [1; 10] (mkLogger INFO [])))
     = false
  /\ (exists s1 s2 s3,
         addInterval 0 5 5 (mkProgram [1; 10] (mkLogger INFO [])) = Ok tt s1
         /\ removeInterval 0 5 3 (mkProgram [1; 10] (mkLogger INFO []))
            = Ok tt s2
         /\ addInterval 3 5 7 (mkProgram [1; 10] (mkLogger INFO []))
            = Ok tt s3).
Proof.
  split; [reflexivity|]. split; [reflexivity|].
  do 3 eexists. repeat split; reflexivity.
Qed.

(** C5 (idempotence): on a list that satisfies the invariant, a second
    [addInterval a b] leaves the list that the first one produced. *)
Theorem addInterval_idempotent (l : list Z) (lg : logger) (fuel : nat)
    (a b : Z) :
  invariant l = true -> a < b -> (List.length l + 2 < fuel)%nat ->
  exists l' lg1 lg2,
    addInterval fuel a b (mkProgram l lg) = Ok tt (mkProgram l' lg1)
    /\ addInterval fuel a b (mkProgram l' lg1) = Ok tt (mkProgram l' lg2).
Proof.
  intros Hinv Hlt Hfuel.
  destruct (addInterval_invariant l lg fuel a b Hinv Hlt)
    as (l1 & lg1 & H1 & _ & Hinv1 & Hlen1 & Hm1); [lia|].
  destruct (addInterval_invariant l1 lg1 fuel a b Hinv1 Hlt)
    as (l2 & lg2 & H2 & _ & Hinv2 & _ & Hm2); [lia|].
  assert (l2 = l1) as ->.
  { apply member_canonical; auto. intros x. rewrite Hm2, Hm1.
    now rewrite <- orb_assoc, orb_diag. }
  exists l1, lg1, lg2. auto.
Qed.

Lemma addInterval_idempotent_witness :
  exists l' lg1 lg2,
    addInterval 9 5 12 (mkProgram [2; 3; 8; 10; 15; 18] (mkLogger DEBUG []))
    = Ok tt (mkProgram l' lg1)
    /\ addInterval 9 5 12 (mkProgram l' lg1) = Ok tt (mkProgram l' lg2).
Proof.
  apply (addInterval_idempotent [2; 3; 8; 10; 15; 18] (mkLogger DEBUG [])
                                9%nat 5 12).
  - reflexivity.
  - lia.
  - simpl. lia.
Defined.

(** C6 (fast paths): for [start < end_], when the list is empty or [start]
    is above the largest stored endpoint, [addInterval] appends [start] and
    [end_] after the existing endpoints; when [end_] is below the smallest
    stored endpoint, it puts them in front of the existing endpoints. *)
Theorem addInterval_fast_paths (l : list Z) (lg : logger) (fuel : nat)
    (start end_ : Z) :
  start < end_ ->
  ((l = [] \/ exists m, maximum l = Some m /\ m < start) ->
   addInterval fuel start end_ (mkProgram l lg)
   = Ok tt (mkProgram (l ++ [start; end_]) lg))
  /\
  ((exists m, minimum l = Some m /\ end_ < m) ->
   addInterval fuel start end_ (mkProgram l lg)
   = Ok tt (mkProgram (start :: end_ :: l) lg)).
Proof.
  intros Hlt. unfold addInterval. rewrite geb_false by lia. split.
  - intros [-> | (m & Hm & Hms)]; [reflexivity|].
    apply maximum_bound in Hm.
    destruct l as [|f F]; [reflexivity|].
    apply Forall_last in Hm. simpl in Hm.
    mred. cbn [List.length Nat.eqb]. unfold py_last. mstep.
    rewrite ltb_true by lia. mstep.
    now rewrite <- app_assoc.
  - intros (m & Hm & Hem).
    destruct l as [|f F]; [discriminate|]. apply minimum_bound in Hm.
    pose proof (Forall_last _ _ _ Hm) as Hz. simpl in Hz.
    inversion Hm as [|? ? Hf _]; subst.
    mred. cbn [List.length Nat.eqb]. unfold py_last. mstep.
    rewrite ltb_false by lia. mstep. cbn [nth_error]. mstep.
    rewrite gtb_true by lia. reflexivity.
Qed.

Lemma addInterval_fast_paths_witness :
  12 < 15 /\ 2 < 3
  /\ addInterval 0 12 15 (mkProgram [5; 10] (mkLogger INFO []))
     = Ok tt (mkProgram ([5; 10] ++ [12; 15]) (mkLogger INFO []))
  /\ addInterval 0 2 3 (mkProgram [5; 10] (mkLogger INFO []))
     = Ok tt (mkProgram (2 :: 3 :: [5; 10]) (mkLogger INFO [])).
Proof.
  split; [lia|]. split; [lia|]. split.
  - destruct (addInterval_fast_paths [5; 10] (mkLogger INFO []) 0%nat 12 15)
      as [H _]; [lia|].
    apply H. right. exists 10. split; [reflexivity|lia].
  - destruct (addInterval_fast_paths [5; 10] (mkLogger INFO []) 0%nat 2 3)
      as [_ H]; [lia|].
    apply H. exists 5. split; [reflexivity|lia].
Defined.

(** C7 (rendering): the empty list is rendered as "[]", but the two
    intervals stored by [add 1 3] and [add 5 8] are rendered with a bare
    comma between the pairs, "[(1, 3),(5, 8)]", where the claimed format has
    a comma and a space, "[(1, 3), (5, 8)]". *)
Theorem printIntervals_separator :
  printIntervals init
  = Ok tt (mkProgram []
             (mkLogger INFO [mkRecord INFO "Intervals: %s" [AStr "[]"]]))
  /\ (exec_all 3 [Add 1 3; Add 5 8] ;; printIntervals) init
     = Ok tt (mkProgram [1; 3; 5; 8]
                (mkLogger INFO
                   [mkRecord INFO "Intervals: %s" [AStr "[(1, 3),(5, 8)]"]]))
  /\ spec_rendering [1; 3; 5; 8] = "[(1, 3), (5, 8)]"%string
  /\ rendering [1; 3; 5; 8] <> spec_rendering [1; 3; 5; 8].
Proof.
  repeat split; try reflexivity. intros H. discriminate H.
Qed.

(** C8 (read-only): from every state, [printIntervals] finishes, by
    returning or by raising, in a state whose stored endpoint list is the one
    it started with; only the logger has changed. *)
Theorem printIntervals_read_only (s : program) :
  exists s',
    (printIntervals s = Ok tt s' \/ printIntervals s = Raise IndexError s')
    /\ m_IntervalList s' = m_IntervalList s.
Proof.
  pose proof (keeps_printIntervals s) as H.
  destruct (printIntervals s) as [[] s' | [] s' |]; [| |destruct H];
    exists s'; auto.
Qed.

(** C9 (termination): from a state that satisfies the invariant and for all
    integer arguments, once the fuel exceeds the length of the list,
    [addInterval], [removeInterval], [clearList] and [printIntervals] all
    return.  The loops finish from every index: the loop test never raises
    and holds only at an index inside the list; the search loop then moves
    the index forward over a list it does not change, and the deletion loop
    removes one element, so the list gets shorter by one. *)
Theorem operations_terminate (s : program) (start end_ : Z) (fuel : nat) :
  invariant (m_IntervalList s) = true ->
  (List.length (m_IntervalList s) < fuel)%nat ->
  (exists s', addInterval fuel start end_ s = Ok tt s')
  /\ (exists s', removeInterval fuel start end_ s = Ok tt s')
  /\ (exists s', clearList s = Ok tt s')
  /\ (exists s', printIntervals s = Ok tt s')
  /\ (forall v idx, exists idx',
         search fuel v idx s = Ok idx' s /\ (idx <= idx')%nat)
  /\ (forall v idx, exists s',
         delete_interior fuel v idx s = Ok idx s'
         /\ (List.length (m_IntervalList s')
             <= List.length (m_IntervalList s))%nat)
  /\ (forall v idx s0, exists b,
         below_at v idx s0 = Ok b s0
         /\ (b = true ->
             (idx < List.length (m_IntervalList s0))%nat
             /\ exists s1, list_del idx s0 = Ok tt s1
                           /\ S (List.length (m_IntervalList s1))
                              = List.length (m_IntervalList s0))).
Proof.
  destruct s as [l lg]. cbn [m_IntervalList].
  intros [Hev _]%invariant_spec Hfuel.
  repeat match goal with |- _ /\ _ => split end.
  - destruct (Z_lt_le_dec start end_) as [Hlt | Hle].
    + destruct (addInterval_total l lg fuel start end_ Hlt Hfuel)
        as (l' & lg' & H & _). eauto.
    + unfold addInterval. rewrite geb_true by lia. eexists. reflexivity.
  - destruct (Z_lt_le_dec start end_) as [Hlt | Hle].
    + destruct (removeInterval_total l lg fuel start end_ Hlt Hfuel)
        as (l' & lg' & H & _). eauto.
    + unfold removeInterval. rewrite geb_true by lia. eexists. reflexivity.
  - unfold clearList, bind, list_clear, set_list. cbn [m_IntervalList m_Logger].
    rewrite printIntervals_run by reflexivity. eauto.
  - rewrite printIntervals_run by assumption. eauto.
  - intros v idx. apply search_terminates. lia.
  - intros v idx.
    destruct (delete_interior_terminates l lg v idx fuel) as (l' & H & Hl);
      [lia|].
    eexists. split; [exact H|exact Hl].
  - intros v idx [l0 lg0].
    destruct (below_at_spec v idx (mkProgram l0 lg0)) as (b & Hb & Hidx).
    exists b. split; [exact Hb|]. intros ->.
    specialize (Hidx eq_refl). split; [exact Hidx|].
    destruct (list_del_shrinks idx l0 lg0 Hidx) as (l1 & H1 & Hlen).
    eexists. split; [exact H1|exact Hlen].
Qed.

Lemma operations_terminate_witness :
  (exists s', addInterval 5 9 2 (mkProgram [1; 4; 6; 10] (mkLogger INFO []))
              = Ok tt s')
  /\ (exists s', removeInterval 5 (-3) 7
                   (mkProgram [1; 4; 6; 10] (mkLogger INFO [])) = Ok tt s')
  /\ (exists s', clearList (mkProgram [1; 4; 6; 10] (mkLogger INFO []))
                 = Ok tt s')
  /\ (exists s', printIntervals (mkProgram [1; 4; 6; 10] (mkLogger INFO []))
                 = Ok tt s').
Proof.
  destruct (operations_terminate
              (mkProgram [1; 4; 6; 10] (mkLogger INFO [])) 9 2 5%nat)
    as (Ha & _ & Hc & Hp & _); [reflexivity|simpl; lia|].
  destruct (operations_terminate
              (mkProgram [1; 4; 6; 10] (mkLogger INFO [])) (-3) 7 5%nat)
    as (_ & Hr & _); [reflexivity|simpl; lia|].
  auto.
Defined.

(** C10 (memory safety): from a list that satisfies the invariant and for
    [start < end_], no run of [addInterval] or [removeInterval] raises,
    whatever the fuel: every read of [L[currentIdx]] and of [L[-1]] and every
    [del] finds its index inside the list; and once the fuel exceeds the
    length of the list both return normally. *)
Theorem accesses_in_bounds (l : list Z) (lg : logger) (fuel : nat)
    (start end_ : Z) :
  invariant l = true -> start < end_ ->
  (forall e s', addInterval fuel start end_ (mkProgram l lg) <> Raise e s')
  /\ (forall e s',
         removeInterval fuel start end_ (mkProgram l lg) <> Raise e s')
  /\ ((List.length l < fuel)%nat ->
      (exists s', addInterval fuel start end_ (mkProgram l lg) = Ok tt s')
      /\ (exists s',
             removeInterval fuel start end_ (mkProgram l lg) = Ok tt s')).
Proof.
  intros Hinv Hlt.
  destruct (addInterval_invariant l lg (S (List.length l)) start end_ Hinv Hlt)
    as (l1 & lg1 & H1 & _); [lia|].
  destruct (removeInterval_invariant l lg (S (List.length l)) start end_
              Hinv Hlt) as (l2 & lg2 & H2 & _); [lia|].
  split; [|split].
  - intros e s'.
    destruct (stable_ok (fun f => addInterval f start end_) _ fuel _ _ _
                        (stable_addInterval start end_) H1) as [-> | ->];
      discriminate.
  - intros e s'.
    destruct (stable_ok (fun f => removeInterval f start end_) _ fuel _ _ _
                        (stable_removeInterval start end_) H2) as [-> | ->];
      discriminate.
  - intros Hfuel.
    destruct (addInterval_invariant l lg fuel start end_ Hinv Hlt Hfuel)
      as (l3 & lg3 & H3 & _).
    destruct (removeInterval_invariant l lg fuel start end_ Hinv Hlt Hfuel)
      as (l4 & lg4 & H4 & _).
    eauto.
Qed.

Lemma accesses_in_bounds_witness :
  (forall e s', addInterval 2 5 12
                  (mkProgram [2; 3; 8; 10; 15; 18] (mkLogger INFO []))
                <> Raise e s')
  /\ (forall e s', removeInterval 2 5 12
                     (mkProgram [2; 3; 8; 10; 15; 18] (mkLogger INFO []))
                   <> Raise e s')
  /\ (exists s', addInterval 7 5 12
                   (mkProgram [2; 3; 8; 10; 15; 18] (mkLogger INFO []))
                 = Ok tt s')
  /\ (exists s', removeInterval 7 5 12
                   (mkProgram [2; 3; 8; 10; 15; 18] (mkLogger INFO []))
                 = Ok tt s').
Proof.
  destruct (accesses_in_bounds [2; 3; 8; 10; 15; 18] (mkLogger INFO []) 2%nat
                               5 12) as (Ha & Hr & _); [reflexivity|lia|].
  destruct (accesses_in_bounds [2; 3; 8; 10; 15; 18] (mkLogger INFO []) 7%nat
                               5 12) as (_ & _ & Hok); [reflexivity|lia|].
  destruct Hok as [H1 H2]; [simpl; lia|].
  auto.
Defined.

(** * Part V: what the code renders *)

(** X1 (rendering, as the code does it): on every list of even length
    [printIntervals] returns, leaves the list, and logs at INFO level the
    formatted intervals joined by a bare comma between brackets, after the
    DEBUG record that shows the list. *)
Theorem printIntervals_rendering (l : list Z) (lg : logger) :
  Nat.even (List.length l) = true ->
  printIntervals (mkProgram l lg)
  = Ok tt (mkProgram l
             (logger_emit
                (mkRecord INFO "Intervals: %s" [AStr (rendering l)])
                (logger_emit (mkRecord DEBUG "Intervals list: %s" [AList l])
                             lg))).
Proof.
  intros Hev. rewrite printIntervals_run by assumption.
  now rewrite output_list_rendering.
Qed.

Lemma printIntervals_rendering_witness :
  printIntervals (mkProgram [1; 3; 5; 8; 10; 12] (mkLogger INFO []))
  = Ok tt (mkProgram [1; 3; 5; 8; 10; 12]
             (logger_emit
                (mkRecord INFO "Intervals: %s"
                          [AStr (rendering [1; 3; 5; 8; 10; 12])])
                (logger_emit
                   (mkRecord DEBUG "Intervals list: %s"
                             [AList [1; 3; 5; 8; 10; 12]])
                   (mkLogger INFO [])))).
Proof.
  apply (printIntervals_rendering [1; 3; 5; 8; 10; 12] (mkLogger INFO [])).
  reflexivity.
Defined.

(** * Part VI: the commands and how calls compose *)

(** ** The log of a valid call *)

Lemma emit_info lg msg args :
  lg_level lg <> ERROR ->
  logger_emit (mkRecord INFO msg args) lg
  = mkLogger (lg_level lg) (lg_emitted lg ++ [mkRecord INFO msg args]).
Proof.
  destruct lg as [[] em]; intros H; try reflexivity. now destruct H.
Qed.

Lemma emit_debug_quiet lg msg args :
  lg_level lg <> DEBUG -> logger_emit (mkRecord DEBUG msg args) lg = lg.
Proof.
  destruct lg as [[] em]; intros H; try reflexivity. now destruct H.
Qed.

Lemma addInterval_log l lg fuel start end_ :
  start < end_ -> (List.length l < fuel)%nat ->
  exists l' lg',
    addInterval fuel start end_ (mkProgram l lg) = Ok tt (mkProgram l' lg')
    /\ (lg' = lg \/ exists si ei n, lg' = logger_emit (locate_record si ei n) lg).
Proof.
  intros Hlt Hfuel. unfold addInterval. rewrite geb_false by lia.
  destruct l as [|f F].
  - exists [start; end_], lg. split; [reflexivity|now left].
  - destruct (py_last (f :: F)) as [z|] eqn:Hz; [|discriminate].
    unfold bind at 1. unfold list_len at 1. mstep.
    cbn [List.length Nat.eqb]. unfold bind at 1. unfold bind at 1.
    unfold list_last at 1. mstep. rewrite Hz. unfold ret at 1.
    destruct (Z.ltb_spec z start) as [Hzs | Hzs]; mstep.
    + do 2 eexists. split; [reflexivity|now left].
    + unfold bind at 1. unfold list_get at 1. mstep. cbn [nth_error].
      destruct (f >? end_).
      * do 2 eexists. split; [reflexivity|now left].
      * destruct (general_split start end_ _ z Hz Hzs)
          as (P & A & Mid & T & E & FP & HA & FM & HT).
        rewrite E in *. rewrite add_general_run by auto.
        do 2 eexists. split; [reflexivity|right; eauto].
Qed.

Lemma removeInterval_log l lg fuel start end_ :
  start < end_ -> (List.length l < fuel)%nat ->
  exists l' lg',
    removeInterval fuel start end_ (mkProgram l lg) = Ok tt (mkProgram l' lg')
    /\ (lg' = lg \/ exists si ei n, lg' = logger_emit (locate_record si ei n) lg).
Proof.
  intros Hlt Hfuel. unfold removeInterval. rewrite geb_false by lia.
  destruct l as [|f F].
  - exists [], lg. split; [reflexivity|now left].
  - destruct (py_last (f :: F)) as [z|] eqn:Hz; [|discriminate].
    unfold bind at 1. unfold list_len at 1. mstep.
    cbn [List.length Nat.eqb]. unfold bind at 1. unfold bind at 1.
    unfold list_last at 1. mstep. rewrite Hz. unfold ret at 1.
    destruct (Z.ltb_spec z start) as [Hzs | Hzs]; mstep.
    + do 2 eexists. split; [reflexivity|now left].
    + destruct (general_split start end_ _ z Hz Hzs)
        as (P & A & Mid & T & E & FP & HA & FM & HT).
      rewrite E in *. rewrite remove_general_run by auto.
      do 2 eexists. split; [reflexivity|right; eauto].
Qed.

Lemma printIntervals_after l lg0 lg :
  Nat.even (List.length l) = true -> lg_level lg0 <> ERROR ->
  only_debug_added lg0 lg ->
  exists lg',
    printIntervals (mkProgram l lg) = Ok tt (mkProgram l lg')
    /\ ends_with_rendering lg0 lg' l.
Proof.
  intros Hev Hlv (Hl & extra & He & Fe).
  rewrite printIntervals_run, output_list_rendering by assumption.
  eexists. split; [reflexivity|].
  destruct (only_debug_added_emit lg "Intervals list: %s" [AList l])
    as (Hl2 & extra2 & He2 & Fe2).
  rewrite emit_info by congruence.
  split; [cbn [lg_level]; congruence|].
  exists (extra ++ extra2). cbn [lg_emitted].
  rewrite He2, He, <- !app_assoc. split; [reflexivity|].
  now apply Forall_app.
Qed.

(** ** do_add and do_remove *)

Lemma accepted_bounds_inv split py_int args start end_ :
  accepted_bounds split py_int args = Some (start, end_) ->
  exists a0 a1 rest,
    split args = a0 :: a1 :: rest /\ py_int a0 = Some start
    /\ py_int a1 = Some end_ /\ start < end_.
Proof.
  unfold accepted_bounds. destruct (split args) as [|a0 [|a1 rest]];
    try discriminate.
  destruct (py_int a0) as [s|] eqn:E0; [|discriminate].
  destruct (py_int a1) as [e|] eqn:E1; [|discriminate].
  destruct (Z.ltb_spec s e); [|discriminate].
  intros [= <- <-]. exists a0, a1, rest. repeat split; auto.
Qed.



Lemma do_add_unfold split py_int fuel args start end_ s :
  accepted_bounds split py_int args = Some (start, end_) ->
  do_add split py_int fuel args s
  = (addInterval fuel start end_ ;; printIntervals) s.
Proof.
  intros (a0 & a1 & rest & Hs & H0 & H1 & Hlt)%accepted_bounds_inv.
  unfold do_add, read_bounds, token. rewrite Hs.
  cbn [List.length Nat.eqb nth_error]. unfold bind at 1. unfold bind at 1.
  unfold ret at 1. rewrite H0. unfold bind at 1. unfold ret at 1.
  rewrite H1. unfold ret at 1. now rewrite geb_false by lia.
Qed.

Lemma do_remove_unfold split py_int fuel args start end_ s :
  accepted_bounds split py_int args = Some (start, end_) ->
  do_remove split py_int fuel args s
  = (removeInterval fuel start end_ ;; printIntervals) s.
Proof.
  intros (a0 & a1 & rest & Hs & H0 & H1 & Hlt)%accepted_bounds_inv.
  unfold do_remove, read_bounds, token. rewrite Hs.
  cbn [List.length Nat.eqb nth_error]. unfold bind at 1. unfold bind at 1.
  unfold ret at 1. rewrite H0. unfold bind at 1. unfold ret at 1.
  rewrite H1. unfold ret at 1. now rewrite geb_false by lia.
Qed.

(** X3 (do_add): when the first two tokens read as integers [start < end_]
    (later tokens are ignored) and the stored list satisfies the invariant,
    [do_add] returns with a list that satisfies the invariant and represents
    the old set united with [[start, end_)]; it logs no ERROR record, and
    the last record it logs is the INFO record that shows the new list. *)
Theorem do_add_accepted (split : string -> list string)
    (py_int : string -> option Z) (fuel : nat) (args : string)
    (l : list Z) (lg : logger) (start end_ : Z) :
  accepted_bounds split py_int args = Some (start, end_) ->
  invariant l = true -> lg_level lg <> ERROR ->
  (List.length l < fuel)%nat ->
  exists l' lg',
    do_add split py_int fuel args (mkProgram l lg) = Ok tt (mkProgram l' lg')
    /\ invariant l' = true
    /\ (forall x, member l' x = member l x || in_interval x (start, end_))
    /\ ends_with_rendering lg lg' l'.
Proof.
  intros Hacc Hinv Hlv Hfuel.
  rewrite (do_add_unfold _ _ _ _ _ _ _ Hacc).
  apply accepted_bounds_inv in Hacc as (_ & _ & _ & _ & _ & _ & Hlt).
  destruct (addInterval_invariant l lg fuel start end_ Hinv Hlt Hfuel)
    as (l1 & lg1 & H1 & Hlg & Hinv1 & _ & Hm).
  assert (Hev : Nat.even (List.length l1) = true)
    by (now apply invariant_spec in Hinv1).
  destruct (printIntervals_after l1 lg lg1 Hev Hlv Hlg) as (lg' & Hp & Hend).
  exists l1, lg'. unfold bind. rewrite H1. auto.
Qed.

Lemma do_add_accepted_witness :
  exists l' lg',
    do_add words decimal 5 "3 8 and more" (mkProgram [1; 4; 6; 10] (mkLogger DEBUG []))
    = Ok tt (mkProgram l' lg')
    /\ invariant l' = true
    /\ (forall x, member l' x = member [1; 4; 6; 10] x || in_interval x (3, 8))
    /\ ends_with_rendering (mkLogger DEBUG []) lg' l'.
Proof.
  apply (do_add_accepted words decimal 5%nat "3 8 and more" [1; 4; 6; 10]
           (mkLogger DEBUG []) 3 8).
  - reflexivity.
  - reflexivity.
  - discriminate.
  - simpl. lia.
Defined.

(** X4 (do_remove): when the first two tokens read as integers
    [start < end_] and the stored list satisfies the invariant, [do_remove]
    returns with a list that satisfies the invariant and represents the old
    set minus [[start, end_)]; it logs no ERROR record, and the last record
    it logs is the INFO record that shows the new list. *)
Theorem do_remove_accepted (split : string -> list string)
    (py_int : string -> option Z) (fuel : nat) (args : string)
    (l : list Z) (lg : logger) (start end_ : Z) :
  accepted_bounds split py_int args = Some (start, end_) ->
  invariant l = true -> lg_level lg <> ERROR ->
  (List.length l < fuel)%nat ->
  exists l' lg',
    do_remove split py_int fuel args (mkProgram l lg)
    = Ok tt (mkProgram l' lg')
    /\ invariant l' = true
    /\ (forall x,
           member l' x = member l x && negb (in_interval x (start, end_)))
    /\ ends_with_rendering lg lg' l'.
Proof.
  intros Hacc Hinv Hlv Hfuel.
  rewrite (do_remove_unfold _ _ _ _ _ _ _ Hacc).
  apply accepted_bounds_inv in Hacc as (_ & _ & _ & _ & _ & _ & Hlt).
  destruct (removeInterval_invariant l lg fuel start end_ Hinv Hlt Hfuel)
    as (l1 & lg1 & H1 & Hlg & Hinv1 & _ & Hm).
  assert (Hev : Nat.even (List.length l1) = true)
    by (now apply invariant_spec in Hinv1).
  destruct (printIntervals_after l1 lg lg1 Hev Hlv Hlg) as (lg' & Hp & Hend).
  exists l1, lg'. unfold bind. rewrite H1. auto.
Qed.

Lemma do_remove_accepted_witness :
  exists l' lg',
    do_remove words decimal 5 "-2 7" (mkProgram [1; 4; 6; 10] (mkLogger INFO []))
    = Ok tt (mkProgram l' lg')
    /\ invariant l' = true
    /\ (forall x,
           member l' x
           = member [1; 4; 6; 10] x && negb (in_interval x (-2, 7)))
    /\ ends_with_rendering (mkLogger INFO []) lg' l'.
Proof.
  apply (do_remove_accepted words decimal 5%nat "-2 7" [1; 4; 6; 10]
           (mkLogger INFO []) (-2) 7).
  - reflexivity.
  - reflexivity.
  - discriminate.
  - simpl. lia.
Defined.

(** ** do_clear and the debugging switch *)

(** X5 (do_clear): from every state whose logger shows INFO records,
    [do_clear] returns with the empty list and logs two INFO records: the
    empty list as shown by [printIntervals], then the result of
    [clearList], which is [None]. *)
Theorem do_clear_logs_twice (s : program) :
  lg_level (m_Logger s) <> ERROR ->
  exists lg' dbg,
    do_clear s = Ok tt (mkProgram [] lg')
    /\ lg_level lg' = lg_level (m_Logger s)
    /\ lg_emitted lg'
       = lg_emitted (m_Logger s) ++ dbg
           ++ [mkRecord INFO "Intervals: %s" [AStr "[]"];
               mkRecord INFO "Intervals: %s" [arg_None]]
    /\ Forall (fun r => lr_level r = DEBUG) dbg.
Proof.
  destruct s as [l lg]. cbn [m_Logger]. intros Hlv.
  destruct (printIntervals_after [] lg lg eq_refl Hlv
              (only_debug_added_refl lg)) as (lg1 & Hp & Hl1 & dbg & He & Fd).
  unfold do_clear, clearList, bind, list_clear, set_list.
  cbn [m_IntervalList m_Logger]. rewrite Hp. unfold log.
  cbn [m_IntervalList m_Logger]. rewrite emit_info by congruence.
  do 2 eexists. split; [reflexivity|]. cbn [lg_level lg_emitted].
  split; [exact Hl1|]. split; [|exact Fd].
  rewrite He, <- !app_assoc. reflexivity.
Qed.

Lemma do_clear_logs_twice_witness :
  exists lg' dbg,
    do_clear (mkProgram [1; 4; 6; 10] (mkLogger DEBUG []))
    = Ok tt (mkProgram [] lg')
    /\ lg_level lg' = DEBUG
    /\ lg_emitted lg'
       = [] ++ dbg
           ++ [mkRecord INFO "Intervals: %s" [AStr "[]"];
               mkRecord INFO "Intervals: %s" [arg_None]]
    /\ Forall (fun r => lr_level r = DEBUG) dbg.
Proof.
  apply (do_clear_logs_twice (mkProgram [1; 4; 6; 10] (mkLogger DEBUG []))).
  discriminate.
Defined.

(** X6 (debugging switch): after [do_disableDebugging] a valid
    [addInterval] or [removeInterval] logs nothing, on every list, and
    [printIntervals] logs the INFO record alone; after [do_enableDebugging]
    [printIntervals] logs the DEBUG record with the raw list before it.
    The two statements on [printIntervals] are for a list of even length. *)
Theorem debugging_switch (l : list Z) (lg : logger) (fuel : nat)
    (start end_ : Z) :
  start < end_ -> (List.length l < fuel)%nat ->
  (exists l',
      (do_disableDebugging ;; addInterval fuel start end_) (mkProgram l lg)
      = Ok tt (mkProgram l'
                 (mkLogger INFO
                    (lg_emitted lg
                       ++ [mkRecord INFO "Debugging mode disabled" []]))))
  /\ (exists l',
         (do_disableDebugging ;; removeInterval fuel start end_)
           (mkProgram l lg)
         = Ok tt (mkProgram l'
                    (mkLogger INFO
                       (lg_emitted lg
                          ++ [mkRecord INFO "Debugging mode disabled" []]))))
  /\ (Nat.even (List.length l) = true ->
      (do_disableDebugging ;; printIntervals) (mkProgram l lg)
      = Ok tt (mkProgram l
                 (mkLogger INFO
                    (lg_emitted lg
                       ++ [mkRecord INFO "Debugging mode disabled" [];
                           mkRecord INFO "Intervals: %s"
                                    [AStr (rendering l)]])))
      /\ (do_enableDebugging ;; printIntervals) (mkProgram l lg)
         = Ok tt (mkProgram l
                    (mkLogger DEBUG
                       (lg_emitted lg
                          ++ [mkRecord INFO "Debugging mode enabled" [];
                              mkRecord DEBUG "Intervals list: %s" [AList l];
                              mkRecord INFO "Intervals: %s"
                                       [AStr (rendering l)]])))).
Proof.
  intros Hlt Hfuel.
  set (off := mkLogger INFO
                (lg_emitted lg ++ [mkRecord INFO "Debugging mode disabled" []])).
  assert (Hoff : forall (A : Type) (k : M A),
             (do_disableDebugging ;; k) (mkProgram l lg)
             = k (mkProgram l off)) by reflexivity.
  assert (Hquiet : forall si ei n, logger_emit (locate_record si ei n) off = off)
    by reflexivity.
  split; [|split; [|intros Hev; split]].
  - rewrite Hoff.
    destruct (addInterval_log l off fuel start end_ Hlt Hfuel)
      as (l' & lg' & H & [-> | (si & ei & n & ->)]); exists l'; exact H.
  - rewrite Hoff.
    destruct (removeInterval_log l off fuel start end_ Hlt Hfuel)
      as (l' & lg' & H & [-> | (si & ei & n & ->)]); exists l'; exact H.
  - rewrite Hoff, printIntervals_run, output_list_rendering by assumption.
    unfold off, logger_emit. cbn. now rewrite <- app_assoc.
  - change ((do_enableDebugging ;; printIntervals) (mkProgram l lg))
      with (printIntervals
              (mkProgram l
                 (mkLogger DEBUG
                    (lg_emitted lg
                       ++ [mkRecord INFO "Debugging mode enabled" []])))).
    rewrite printIntervals_run, output_list_rendering by assumption.
    unfold logger_emit. cbn. now rewrite <- !app_assoc.
Qed.

Lemma debugging_switch_witness :
  (exists l',
      (do_disableDebugging ;; addInterval 5 3 8)
        (mkProgram [1; 4; 6] (mkLogger DEBUG []))
      = Ok tt (mkProgram l'
                 (mkLogger INFO
                    ([] ++ [mkRecord INFO "Debugging mode disabled" []]))))
  /\ (exists l',
         (do_disableDebugging ;; removeInterval 5 3 8)
           (mkProgram [1; 4; 6] (mkLogger DEBUG []))
         = Ok tt (mkProgram l'
                    (mkLogger INFO
                       ([] ++ [mkRecord INFO "Debugging mode disabled" []]))))
  /\ (do_disableDebugging ;; printIntervals)
       (mkProgram [1; 4; 6; 10] (mkLogger DEBUG []))
     = Ok tt (mkProgram [1; 4; 6; 10]
                (mkLogger INFO
                   ([] ++ [mkRecord INFO "Debugging mode disabled" [];
                           mkRecord INFO "Intervals: %s"
                                    [AStr (rendering [1; 4; 6; 10])]])))
  /\ (do_enableDebugging ;; printIntervals)
       (mkProgram [1; 4; 6; 10] (mkLogger INFO []))
     = Ok tt (mkProgram [1; 4; 6; 10]
                (mkLogger DEBUG
                   ([] ++ [mkRecord INFO "Debugging mode enabled" [];
                           mkRecord DEBUG "Intervals list: %s"
                                    [AList [1; 4; 6; 10]];
                           mkRecord INFO "Intervals: %s"
                                    [AStr (rendering [1; 4; 6; 10])]]))).
Proof.
  destruct (debugging_switch [1; 4; 6] (mkLogger DEBUG []) 5%nat 3 8)
    as (Ha & Hr & _); [lia|simpl; lia|].
  destruct (debugging_switch [1; 4; 6; 10] (mkLogger DEBUG []) 5%nat 3 8)
    as (_ & _ & Hd); [lia|simpl; lia|].
  destruct (debugging_switch [1; 4; 6; 10] (mkLogger INFO []) 5%nat 3 8)
    as (_ & _ & He); [lia|simpl; lia|].
  split; [exact Ha|]. split; [exact Hr|].
  split; [apply Hd; reflexivity|apply He; reflexivity].
Defined.

(** ** How calls compose *)

Lemma exec_all_covers cs : forall l lg fuel,
  forallb valid cs = true -> invariant l = true ->
  (List.length l + 2 * List.length cs < fuel)%nat ->
  exists l' lg',
    exec_all fuel cs (mkProgram l lg) = Ok tt (mkProgram l' lg')
    /\ invariant l' = true
    /\ (List.length l' <= List.length l + 2 * List.length cs)%nat
    /\ forall x, member l' x = covers_after cs l x.
Proof.
  induction cs as [|c cs IH]; intros l lg fuel Hv Hinv Hfuel.
  - exists l, lg. repeat split; auto. simpl. lia.
  - cbn [forallb] in Hv. apply andb_prop in Hv as [Hc Hv].
    cbn [List.length] in Hfuel.
    assert (Hstep : exists l1 lg1,
               exec fuel c (mkProgram l lg) = Ok tt (mkProgram l1 lg1)
               /\ invariant l1 = true
               /\ (List.length l1 <= List.length l + 2)%nat
               /\ forall x, member l1 x = covered_step x (member l x) c).
    { destruct c as [s e | s e]; simpl in Hc; apply Z.ltb_lt in Hc;
        cbn [exec covered_step].
      - destruct (addInterval_invariant l lg fuel s e Hinv Hc)
          as (l1 & lg1 & H1 & _ & H2 & H3 & H4); [lia|].
        exists l1, lg1. auto.
      - destruct (removeInterval_invariant l lg fuel s e Hinv Hc)
          as (l1 & lg1 & H1 & _ & H2 & H3 & H4); [lia|].
        exists l1, lg1. auto. }
    destruct Hstep as (l1 & lg1 & H1 & Hinv1 & Hlen1 & Hm1).
    destruct (IH l1 lg1 fuel Hv Hinv1) as (l' & lg' & H' & Hinv' & Hlen' & Hm');
      [lia|].
    exists l', lg'. split; [|split; [exact Hinv'|split]].
    + cbn [exec_all]. unfold bind. now rewrite H1.
    + cbn [List.length]. lia.
    + intros x. rewrite Hm'. unfold covers_after. cbn [fold_left].
      now rewrite Hm1.
Qed.

(** X7 (sequences of calls): from a list that satisfies the invariant, any
    sequence of [addInterval] and [removeInterval] calls with [start < end]
    returns a list that satisfies the invariant, has at most two more
    endpoints per call, and represents the set obtained by uniting and
    subtracting the intervals in call order. *)
Theorem commands_denote (cs : list command) (l : list Z) (lg : logger)
    (fuel : nat) :
  forallb valid cs = true -> invariant l = true ->
  (List.length l + 2 * List.length cs < fuel)%nat ->
  exists l' lg',
    exec_all fuel cs (mkProgram l lg) = Ok tt (mkProgram l' lg')
    /\ invariant l' = true
    /\ (List.length l' <= List.length l + 2 * List.length cs)%nat
    /\ forall x, member l' x = covers_after cs l x.
Proof. apply exec_all_covers. Qed.

Lemma commands_denote_witness :
  exists l' lg',
    exec_all 9 [Add 1 10; Remove 4 6; Add 5 12; Remove 0 2]
             (mkProgram [] (mkLogger INFO []))
    = Ok tt (mkProgram l' lg')
    /\ invariant l' = true
    /\ (List.length l' <= List.length (@nil Z) + 2 * 4)%nat
    /\ forall x, member l' x
                 = covers_after [Add 1 10; Remove 4 6; Add 5 12; Remove 0 2]
                                [] x.
Proof.
  apply (commands_denote [Add 1 10; Remove 4 6; Add 5 12; Remove 0 2] []
                         (mkLogger INFO []) 9%nat).
  - reflexivity.
  - reflexivity.
  - simpl. lia.
Defined.

Lemma exec_all_same cs1 cs2 l lg1 lg2 fuel :
  forallb valid cs1 = true -> forallb valid cs2 = true ->
  invariant l = true ->
  (List.length l + 2 * List.length cs1 < fuel)%nat ->
  (List.length l + 2 * List.length cs2 < fuel)%nat ->
  (forall x, covers_after cs1 l x = covers_after cs2 l x) ->
  exists l' lg1' lg2',
    exec_all fuel cs1 (mkProgram l lg1) = Ok tt (mkProgram l' lg1')
    /\ exec_all fuel cs2 (mkProgram l lg2) = Ok tt (mkProgram l' lg2')
    /\ invariant l' = true
    /\ forall x, member l' x = covers_after cs1 l x.
Proof.
  intros Hv1 Hv2 Hinv Hf1 Hf2 Heq.
  destruct (exec_all_covers cs1 l lg1 fuel Hv1 Hinv Hf1)
    as (l1 & lg1' & H1 & Hinv1 & _ & Hm1).
  destruct (exec_all_covers cs2 l lg2 fuel Hv2 Hinv Hf2)
    as (l2 & lg2' & H2 & Hinv2 & _ & Hm2).
  assert (l2 = l1) as ->.
  { apply member_canonical; auto. intros x. now rewrite Hm1, Hm2, Heq. }
  exists l1, lg1', lg2'. auto.
Qed.

(** X8 (the list depends on the set only): from a list that satisfies the
    invariant, two sequences of valid calls that denote the same set leave
    exactly the same stored list, whatever the calls were. *)
Theorem history_independence (cs1 cs2 : list command) (l : list Z)
    (lg1 lg2 : logger) (fuel : nat) :
  forallb valid cs1 = true -> forallb valid cs2 = true ->
  invariant l = true ->
  (List.length l + 2 * List.length cs1 < fuel)%nat ->
  (List.length l + 2 * List.length cs2 < fuel)%nat ->
  (forall x, covers_after cs1 l x = covers_after cs2 l x) ->
  exists l' lg1' lg2',
    exec_all fuel cs1 (mkProgram l lg1) = Ok tt (mkProgram l' lg1')
    /\ exec_all fuel cs2 (mkProgram l lg2) = Ok tt (mkProgram l' lg2').
Proof.
  intros Hv1 Hv2 Hinv Hf1 Hf2 Heq.
  destruct (exec_all_same cs1 cs2 l lg1 lg2 fuel Hv1 Hv2 Hinv Hf1 Hf2 Heq)
    as (l' & lg1' & lg2' & H1 & H2 & _).
  eauto.
Qed.

Lemma history_independence_witness :
  exists l' lg1' lg2',
    exec_all 9 [Add 1 3; Add 4 6; Add 3 4; Remove 2 5]
             (mkProgram [] (mkLogger INFO []))
    = Ok tt (mkProgram l' lg1')
    /\ exec_all 9 [Add 5 6; Add 1 2] (mkProgram [] (mkLogger DEBUG []))
       = Ok tt (mkProgram l' lg2').
Proof.
  apply (history_independence [Add 1 3; Add 4 6; Add 3 4; Remove 2 5]
           [Add 5 6; Add 1 2] [] (mkLogger INFO []) (mkLogger DEBUG []) 9%nat).
  - reflexivity.
  - reflexivity.
  - reflexivity.
  - simpl. lia.
  - simpl. lia.
  - intros x. unfold covers_after, covered_step, in_interval.
    cbn [fold_left member intervals existsb fst snd].
    destruct (Z.leb_spec 1 x), (Z.ltb_spec x 3), (Z.leb_spec 4 x),
      (Z.ltb_spec x 6), (Z.leb_spec 3 x), (Z.ltb_spec x 4),
      (Z.leb_spec 2 x), (Z.ltb_spec x 5), (Z.leb_spec 5 x),
      (Z.ltb_spec x 2); try reflexivity; lia.
Defined.

(** X9 (round trips): on a list that satisfies the invariant, adding an
    interval that meets no stored interval and then removing it gives back
    exactly the list; so does removing an interval that lies inside the
    stored set and then adding it. *)
Theorem add_remove_round_trip (l : list Z) (lg : logger) (fuel : nat)
    (a b : Z) :
  invariant l = true -> a < b -> (List.length l + 2 < fuel)%nat ->
  ((forall x, a <= x < b -> member l x = false) ->
   exists lg',
     (addInterval fuel a b ;; removeInterval fuel a b) (mkProgram l lg)
     = Ok tt (mkProgram l lg'))
  /\ ((forall x, a <= x < b -> member l x = true) ->
      exists lg',
        (removeInterval fuel a b ;; addInterval fuel a b) (mkProgram l lg)
        = Ok tt (mkProgram l lg')).
Proof.
  intros Hinv Hlt Hfuel. split; intros Hx.
  - destruct (addInterval_invariant l lg fuel a b Hinv Hlt)
      as (l1 & lg1 & H1 & _ & Hinv1 & Hlen1 & Hm1); [lia|].
    destruct (removeInterval_invariant l1 lg1 fuel a b Hinv1 Hlt)
      as (l2 & lg2 & H2 & _ & Hinv2 & _ & Hm2); [lia|].
    assert (l2 = l) as ->.
    { apply member_canonical; auto. intros x. rewrite Hm2, Hm1.
      destruct (Z.leb_spec a x), (Z.ltb_spec x b); cbn [andb negb orb];
        rewrite ?orb_false_r, ?andb_true_r, ?andb_false_r; auto.
      symmetry. apply Hx. lia. }
    exists lg2. unfold bind. now rewrite H1.
  - destruct (removeInterval_invariant l lg fuel a b Hinv Hlt)
      as (l1 & lg1 & H1 & _ & Hinv1 & Hlen1 & Hm1); [lia|].
    destruct (addInterval_invariant l1 lg1 fuel a b Hinv1 Hlt)
      as (l2 & lg2 & H2 & _ & Hinv2 & _ & Hm2); [lia|].
    assert (l2 = l) as ->.
    { apply member_canonical; auto. intros x. rewrite Hm2, Hm1.
      destruct (Z.leb_spec a x), (Z.ltb_spec x b); cbn [andb negb orb];
        rewrite ?orb_false_r, ?orb_true_r, ?andb_true_r, ?andb_false_r; auto.
      symmetry. apply Hx. lia. }
    exists lg2. unfold bind. now rewrite H1.
Qed.

Lemma add_remove_round_trip_witness :
  (exists lg',
      (addInterval 7 4 6 ;; removeInterval 7 4 6)
        (mkProgram [1; 4; 6; 10] (mkLogger INFO []))
      = Ok tt (mkProgram [1; 4; 6; 10] lg'))
  /\ (exists lg',
         (removeInterval 7 7 9 ;; addInterval 7 7 9)
           (mkProgram [1; 4; 6; 10] (mkLogger INFO []))
         = Ok tt (mkProgram [1; 4; 6; 10] lg')).
Proof.
  split.
  - destruct (add_remove_round_trip [1; 4; 6; 10] (mkLogger INFO []) 7%nat
                                    4 6) as [H _];
      [reflexivity|lia|simpl; lia|].
    apply H. intros x Hx. unfold member, in_interval.
    cbn [intervals existsb fst snd].
    destruct (Z.leb_spec 1 x), (Z.ltb_spec x 4), (Z.leb_spec 6 x),
      (Z.ltb_spec x 10); try reflexivity; lia.
  - destruct (add_remove_round_trip [1; 4; 6; 10] (mkLogger INFO []) 7%nat
                                    7 9) as [_ H];
      [reflexivity|lia|simpl; lia|].
    apply H. intros x Hx. unfold member, in_interval.
    cbn [intervals existsb fst snd].
    destruct (Z.leb_spec 1 x), (Z.ltb_spec x 4), (Z.leb_spec 6 x),
      (Z.ltb_spec x 10); try reflexivity; lia.
Defined.

(** X10 (calls that change nothing, and the call that removes everything):
    on a list that satisfies the invariant, adding an interval that already
    lies inside the stored set leaves the list as it is, and removing an
    interval that contains the whole stored set leaves the empty list. *)
Theorem absorbed_calls (l : list Z) (lg : logger) (fuel : nat) (a b : Z) :
  invariant l = true -> a < b -> (List.length l < fuel)%nat ->
  ((forall x, a <= x < b -> member l x = true) ->
   exists lg', addInterval fuel a b (mkProgram l lg) = Ok tt (mkProgram l lg'))
  /\ ((forall x, member l x = true -> a <= x < b) ->
      exists lg',
        removeInterval fuel a b (mkProgram l lg) = Ok tt (mkProgram [] lg')).
Proof.
  intros Hinv Hlt Hfuel. split; intros Hx.
  - destruct (addInterval_invariant l lg fuel a b Hinv Hlt Hfuel)
      as (l1 & lg1 & H1 & _ & Hinv1 & _ & Hm1).
    assert (l1 = l) as ->; [|eauto].
    apply member_canonical; auto. intros x. rewrite Hm1.
    destruct (Z.leb_spec a x), (Z.ltb_spec x b); cbn [andb];
      rewrite ?orb_false_r; auto.
    rewrite orb_true_r. symmetry. apply Hx. lia.
  - destruct (removeInterval_invariant l lg fuel a b Hinv Hlt Hfuel)
      as (l1 & lg1 & H1 & _ & Hinv1 & _ & Hm1).
    assert (l1 = []) as ->; [|eauto].
    apply member_canonical; auto. intros x. rewrite Hm1.
    change (member [] x) with false.
    destruct (member l x) eqn:E; [|reflexivity].
    apply Hx in E.
    destruct (Z.leb_spec a x), (Z.ltb_spec x b); try reflexivity; lia.
Qed.

Lemma absorbed_calls_witness :
  (exists lg',
      addInterval 5 7 9 (mkProgram [1; 4; 6; 10] (mkLogger INFO []))
      = Ok tt (mkProgram [1; 4; 6; 10] lg'))
  /\ (exists lg',
         removeInterval 5 0 10 (mkProgram [1; 4; 6; 10] (mkLogger INFO []))
         = Ok tt (mkProgram [] lg')).
Proof.
  split.
  - destruct (absorbed_calls [1; 4; 6; 10] (mkLogger INFO []) 5%nat 7 9)
      as [H _]; [reflexivity|lia|simpl; lia|].
    apply H. intros x Hx. unfold member, in_interval.
    cbn [intervals existsb fst snd].
    destruct (Z.leb_spec 1 x), (Z.ltb_spec x 4), (Z.leb_spec 6 x),
      (Z.ltb_spec x 10); try reflexivity; lia.
  - destruct (absorbed_calls [1; 4; 6; 10] (mkLogger INFO []) 5%nat 0 10)
      as [_ H]; [reflexivity|lia|simpl; lia|].
    apply H. intros x. unfold member, in_interval.
    cbn [intervals existsb fst snd].
    destruct (Z.leb_spec 1 x), (Z.ltb_spec x 4), (Z.leb_spec 6 x),
      (Z.ltb_spec x 10); cbn [andb orb]; intros Hm;
      try discriminate; lia.
Defined.

(** X11 (order of calls): on a list that satisfies the invariant, two
    [addInterval] calls leave the same list in either order, and so do two
    [removeInterval] calls. *)
Theorem calls_commute (l : list Z) (lg : logger) (fuel : nat)
    (a b c d : Z) :
  invariant l = true -> a < b -> c < d -> (List.length l + 2 < fuel)%nat ->
  (exists l' lg1 lg2,
      (addInterval fuel a b ;; addInterval fuel c d) (mkProgram l lg)
      = Ok tt (mkProgram l' lg1)
      /\ (addInterval fuel c d ;; addInterval fuel a b) (mkProgram l lg)
         = Ok tt (mkProgram l' lg2))
  /\ (exists l' lg1 lg2,
         (removeInterval fuel a b ;; removeInterval fuel c d) (mkProgram l lg)
         = Ok tt (mkProgram l' lg1)
         /\ (removeInterval fuel c d ;; removeInterval fuel a b)
              (mkProgram l lg)
            = Ok tt (mkProgram l' lg2)).
Proof.
  intros Hinv Hab Hcd Hfuel. split.
  - destruct (addInterval_invariant l lg fuel a b Hinv Hab)
      as (l1 & g1 & H1 & _ & I1 & L1 & M1); [lia|].
    destruct (addInterval_invariant l1 g1 fuel c d I1 Hcd)
      as (l2 & g2 & H2 & _ & I2 & _ & M2); [lia|].
    destruct (addInterval_invariant l lg fuel c d Hinv Hcd)
      as (l3 & g3 & H3 & _ & I3 & L3 & M3); [lia|].
    destruct (addInterval_invariant l3 g3 fuel a b I3 Hab)
      as (l4 & g4 & H4 & _ & I4 & _ & M4); [lia|].
    assert (l4 = l2) as ->.
    { apply member_canonical; auto. intros x. rewrite M4, M3, M2, M1.
      now rewrite <- !orb_assoc, (orb_comm (_ && _)). }
    exists l2, g2, g4. unfold bind. now rewrite H1, H3.
  - destruct (removeInterval_invariant l lg fuel a b Hinv Hab)
      as (l1 & g1 & H1 & _ & I1 & L1 & M1); [lia|].
    destruct (removeInterval_invariant l1 g1 fuel c d I1 Hcd)
      as (l2 & g2 & H2 & _ & I2 & _ & M2); [lia|].
    destruct (removeInterval_invariant l lg fuel c d Hinv Hcd)
      as (l3 & g3 & H3 & _ & I3 & L3 & M3); [lia|].
    destruct (removeInterval_invariant l3 g3 fuel a b I3 Hab)
      as (l4 & g4 & H4 & _ & I4 & _ & M4); [lia|].
    assert (l4 = l2) as ->.
    { apply member_canonical; auto. intros x. rewrite M4, M3, M2, M1.
      now rewrite <- !andb_assoc, (andb_comm (negb _)). }
    exists l2, g2, g4. unfold bind. now rewrite H1, H3.
Qed.

Lemma calls_commute_witness :
  (exists l' lg1 lg2,
      (addInterval 7 3 8 ;; addInterval 7 9 12)
        (mkProgram [1; 4; 6; 10] (mkLogger INFO []))
      = Ok tt (mkProgram l' lg1)
      /\ (addInterval 7 9 12 ;; addInterval 7 3 8)
           (mkProgram [1; 4; 6; 10] (mkLogger INFO []))
         = Ok tt (mkProgram l' lg2))
  /\ (exists l' lg1 lg2,
         (removeInterval 7 3 8 ;; removeInterval 7 9 12)
           (mkProgram [1; 4; 6; 10] (mkLogger INFO []))
         = Ok tt (mkProgram l' lg1)
         /\ (removeInterval 7 9 12 ;; removeInterval 7 3 8)
              (mkProgram [1; 4; 6; 10] (mkLogger INFO []))
            = Ok tt (mkProgram l' lg2)).
Proof.
  apply (calls_commute [1; 4; 6; 10] (mkLogger INFO []) 7%nat 3 8 9 12).
  - reflexivity.
  - lia.
  - lia.
  - simpl. lia.
Defined.

(** ** Endpoints outside the interval *)

Lemma filter_all (f : Z -> bool) l :
  Forall (fun x => f x = true) l -> filter f l = l.
Proof.
  induction 1 as [|a l Ha _ IH]; [reflexivity|]. simpl. now rewrite Ha, IH.
Qed.

Lemma filter_none (f : Z -> bool) l :
  Forall (fun x => f x = false) l -> filter f l = [].
Proof.
  induction 1 as [|a l Ha _ IH]; [reflexivity|]. simpl. now rewrite Ha, IH.
Qed.

Lemma pieces_filters start end_ P A Mid B S :
  start < end_ -> pieces start end_ P A Mid B S ->
  filter (fun x => x <? start) (P ++ A ++ Mid ++ B ++ S) = P
  /\ filter (fun x => end_ <? x) (P ++ A ++ Mid ++ B ++ S) = S.
Proof.
  intros Hlt Hp.
  pose proof (pieces_A _ _ _ _ _ _ _ Hp (fun e => e = start) eq_refl) as FA.
  pose proof (pieces_B _ _ _ _ _ _ _ Hp (fun e => e = end_) eq_refl) as FB.
  destruct Hp as (FP & _ & FM & _ & FS).
  rewrite !filter_app. split.
  - rewrite (filter_all _ P), (filter_none _ A), (filter_none _ Mid),
      (filter_none _ B), (filter_none _ S); [now rewrite app_nil_r| | | | |].
    + eapply Forall_impl; [|exact FS]. simpl. intros; apply Z.ltb_ge; lia.
    + eapply Forall_impl; [|exact FB]. simpl. intros; apply Z.ltb_ge; lia.
    + eapply Forall_impl; [|exact FM]. simpl. intros; apply Z.ltb_ge; lia.
    + eapply Forall_impl; [|exact FA]. simpl. intros; apply Z.ltb_ge; lia.
    + eapply Forall_impl; [|exact FP]. simpl. intros; apply Z.ltb_lt; lia.
  - rewrite (filter_none _ P), (filter_none _ A), (filter_none _ Mid),
      (filter_none _ B), (filter_all _ S); [reflexivity| | | | |].
    + eapply Forall_impl; [|exact FS]. simpl. intros; apply Z.ltb_lt; lia.
    + eapply Forall_impl; [|exact FB]. simpl. intros; apply Z.ltb_ge; lia.
    + eapply Forall_impl; [|exact FM]. simpl. intros; apply Z.ltb_ge; lia.
    + eapply Forall_impl; [|exact FA]. simpl. intros; apply Z.ltb_ge; lia.
    + eapply Forall_impl; [|exact FP]. simpl. intros; apply Z.ltb_ge; lia.
Qed.

Lemma pieces_below_end start end_ P A Mid B S :
  start < end_ -> pieces start end_ P A Mid B S ->
  below (P ++ A ++ Mid ++ B ++ S) end_
  = (List.length P + List.length A + List.length Mid + List.length B)%nat.
Proof.
  intros Hlt Hp.
  pose proof (pieces_le_end _ _ _ _ _ _ _ Hlt Hp) as Hle.
  destruct Hp as (_ & _ & _ & _ & FS).
  replace (P ++ A ++ Mid ++ B ++ S) with ((P ++ A ++ Mid ++ B) ++ S)
    by now rewrite <- !app_assoc.
  rewrite below_app, (below_all _ _ Hle), (below_none _ _ FS), !length_app.
  lia.
Qed.

(** X12 (locality): on a list that satisfies the invariant, a valid
    [addInterval] or [removeInterval] keeps every stored endpoint below
    [start] and every stored endpoint above [end_], in place and in order;
    between them it leaves nothing but [start] and [end_] themselves, each at
    most once and in this order.  [addInterval] leaves [start] exactly when
    an even number of stored endpoints lies below it and [end_] exactly when
    an even number lies at or below it; [removeInterval] does so when the
    number is odd. *)
Theorem calls_are_local (l : list Z) (lg : logger) (fuel : nat)
    (start end_ : Z) :
  invariant l = true -> start < end_ -> (List.length l < fuel)%nat ->
  (exists lg',
      addInterval fuel start end_ (mkProgram l lg)
      = Ok tt (mkProgram
                 (filter (fun x => x <? start) l
                    ++ opt (Nat.even
                              (List.length (filter (fun x => x <? start) l)))
                           start
                    ++ opt (Nat.even (below l end_)) end_
                    ++ filter (fun x => end_ <? x) l) lg'))
  /\ (exists lg',
         removeInterval fuel start end_ (mkProgram l lg)
         = Ok tt (mkProgram
                    (filter (fun x => x <? start) l
                       ++ opt (Nat.odd
                                 (List.length
                                    (filter (fun x => x <? start) l)))
                              start
                       ++ opt (Nat.odd (below l end_)) end_
                       ++ filter (fun x => end_ <? x) l) lg')).
Proof.
  intros [Hev Hs]%invariant_spec Hlt Hfuel.
  destruct (sorted_pieces start end_ l Hs Hlt)
    as (P & A & Mid & B & S & -> & Hp & _ & _).
  destruct (pieces_filters start end_ P A Mid B S Hlt Hp) as [-> ->].
  rewrite (pieces_below_end start end_ P A Mid B S Hlt Hp).
  split.
  - destruct (add_run_pieces start end_ P A Mid B S lg fuel Hlt Hp Hev Hfuel)
      as (lg' & Hrun & _).
    exists lg'. exact Hrun.
  - destruct (remove_run_pieces start end_ P A Mid B S lg fuel Hlt Hp Hev
                                Hfuel) as (lg' & Hrun & _).
    exists lg'. exact Hrun.
Qed.

Lemma calls_are_local_witness :
  (exists lg',
      addInterval 7 5 12 (mkProgram [2; 3; 8; 10; 15; 18] (mkLogger INFO []))
      = Ok tt (mkProgram
                 (filter (fun x => x <? 5) [2; 3; 8; 10; 15; 18]
                    ++ opt (Nat.even
                              (List.length
                                 (filter (fun x => x <? 5)
                                         [2; 3; 8; 10; 15; 18])))
                           5
                    ++ opt (Nat.even (below [2; 3; 8; 10; 15; 18] 12)) 12
                    ++ filter (fun x => 12 <? x) [2; 3; 8; 10; 15; 18]) lg'))
  /\ (exists lg',
         removeInterval 7 5 12
           (mkProgram [2; 3; 8; 10; 15; 18] (mkLogger INFO []))
         = Ok tt (mkProgram
                    (filter (fun x => x <? 5) [2; 3; 8; 10; 15; 18]
                       ++ opt (Nat.odd
                                 (List.length
                                    (filter (fun x => x <? 5)
                                            [2; 3; 8; 10; 15; 18])))
                              5
                       ++ opt (Nat.odd (below [2; 3; 8; 10; 15; 18] 12)) 12
                       ++ filter (fun x => 12 <? x) [2; 3; 8; 10; 15; 18])
                    lg')).
Proof.
  apply (calls_are_local [2; 3; 8; 10; 15; 18] (mkLogger INFO []) 7%nat 5 12).
  - reflexivity.
  - lia.
  - simpl. lia.
Defined.

(** ** [printIntervals] on a list of odd length *)

Lemma div2_succ_odd n : Nat.odd n = true -> Nat.div2 (S n) = S (Nat.div2 n).
Proof.
  intros [k ->]%Nat.odd_spec.
  replace (S (2 * k + 1)) with (2 * S k)%nat by lia.
  replace (2 * k + 1)%nat with (S (2 * k)) by lia.
  now rewrite Nat.div2_double, Nat.div2_succ_double.
Qed.

Lemma for_each_odd rest : forall done j acc lg,
  List.length done = (2 * j)%nat -> Nat.odd (List.length rest) = true ->
  for_each (map (fun k => 2 * k)%nat (seq j (S (Nat.div2 (List.length rest)))))
           format_step acc (mkProgram (done ++ rest) lg)
  = Raise IndexError (mkProgram (done ++ rest) lg).
Proof.
  induction rest as [|a|a b rest IH] using pair_ind;
    intros done j acc lg Hlen Hodd.
  - discriminate.
  - cbn [List.length Nat.div2 seq map for_each].
    unfold bind at 1. unfold format_step at 1. mred.
    rewrite <- Hlen, nth_error_at. mstep.
    rewrite <- (length_snoc done a), nth_error_past. reflexivity.
  - cbn [List.length Nat.div2 seq map for_each].
    unfold bind at 1. unfold format_step at 1. mred.
    rewrite <- Hlen, nth_error_at. mstep.
    replace (done ++ a :: b :: rest) with ((done ++ [a]) ++ b :: rest)
      by (now rewrite <- app_assoc).
    rewrite <- (length_snoc done a), nth_error_at. mstep.
    replace ((done ++ [a]) ++ b :: rest) with ((done ++ [a; b]) ++ rest)
      by (now rewrite <- !app_assoc).
    apply (IH (done ++ [a; b]) (S j)); auto.
    rewrite length_app. simpl. lia.
Qed.

(** X13 (odd length): on a list of odd length [printIntervals] raises
    [IndexError] when it reads the end of the last, unpaired interval: the
    list is left alone and no INFO record is logged, only the DEBUG record
    that shows the list. *)
Theorem printIntervals_odd_length (l : list Z) (lg : logger) :
  Nat.odd (List.length l) = true ->
  printIntervals (mkProgram l lg)
  = Raise IndexError
      (mkProgram l
         (logger_emit (mkRecord DEBUG "Intervals list: %s" [AList l]) lg)).
Proof.
  intros Hodd. unfold printIntervals.
  unfold bind at 1. unfold list_snapshot at 1. mstep.
  unfold bind at 1. unfold log at 1. mstep.
  unfold bind at 1. unfold list_len at 1. mstep.
  unfold range_step2. rewrite div2_succ_odd by assumption.
  unfold bind at 1.
  now rewrite (for_each_odd l [] 0%nat) by auto.
Qed.

Lemma printIntervals_odd_length_witness :
  printIntervals (mkProgram [1; 3; 5] (mkLogger DEBUG []))
  = Raise IndexError
      (mkProgram [1; 3; 5]
         (logger_emit (mkRecord DEBUG "Intervals list: %s" [AList [1; 3; 5]])
                      (mkLogger DEBUG []))).
Proof.
  apply (printIntervals_odd_length [1; 3; 5] (mkLogger DEBUG [])).
  reflexivity.
Defined.
